(** * The incremental Merkle tree of [src/merkle.js]

    A shallow embedding of the class [MerkleTree] and the properties its
    specification states about it.

    - JavaScript values that the tree stores and hashes are the elements of
      a type [Val] with a distinguished element [undefined]; reading a key
      that an object does not have, or an index past the end of an array,
      yields [undefined].
    - [hash] (line 53) wraps the external MiMC collaborator; it is taken as a
      total function from arrays of values to values.  Its conversion
      [bigInt(x)] (line 55) throws a [TypeError] on [undefined]: the
      definitions named with a final [T] are the methods with that throw,
      and every tree they reach the methods without it reach
      ([reachableT_reachable]).
    - Objects used as dictionaries ([zeros], [filledSubtrees], [filledPaths]
      and its rows) are [gmap nat]; the array [leaves] is a list.
    - Depths, levels and leaf indices are natural numbers with exact
      arithmetic: [Math.pow(2, n)] is [2 ^ n] and [parseInt(curIdx / 2)] is
      [curIdx / 2], the quotient rounded down.  [===] on values is equality.
    - Methods run in a state-and-exception monad over the fields of [this]:
      a [throw] keeps whatever the method had already written. *)

From stdpp Require Import base option list gmap strings.

Set Default Proof Using "Type".

(** ** Exceptions and completions *)

(** [new Error(msg)] and the [TypeError] of a property access on
    [undefined]. *)
Inductive exn :=
| Error (msg : string)
| TypeError.

(** The failure kinds of the specification. *)
Inductive failure :=
| CapacityExceeded
| LeafNotInserted
| ProofMismatch.

Definition msg_max_capacity : string := "Merkle Tree at max capacity".
Definition msg_cannot_verify : string :=
  "Can't verify leaf which hasn't been inserted yet!".
Definition msg_mismatch : string :=
  "MerkleTree: tree root / current level has mismatch".
Definition msg_no_path : string :=
  "Path not constructed yet, leafIndex >= nextIndex".

(** Which failure kind a thrown exception is. *)
Definition classify (e : exn) : option failure :=
  match e with
  | TypeError => None
  | Error msg =>
      if decide (msg = msg_max_capacity) then Some CapacityExceeded
      else if decide (msg = msg_cannot_verify) then Some LeafNotInserted
      else if decide (msg = msg_no_path) then Some LeafNotInserted
      else if decide (msg = msg_mismatch) then Some ProofMismatch
      else None
  end.

(** How a call ends: with a value, or with a thrown exception. *)
Inductive completion (A : Type) :=
| Normal (a : A)
| Throw (e : exn).
Arguments Normal {A} a.
Arguments Throw {A} e.

(** ** An ideal hash, to run the model on concrete inputs

    Values are [undefined], numbers, and formal hashes of two values: the
    free algebra, in which the two-input hash is injective. *)
Inductive term :=
| TUndefined
| TNum (n : N)
| TMimc (l r : term).

#[global] Instance term_eq_dec : EqDecision term.
Proof. solve_decision. Defined.

Definition term_hash (values : list term) : term :=
  match values with
  | [l; r] => TMimc l r
  | _ => TUndefined
  end.

(** The comparisons [>] and [>=] of the source, decided. *)
#[global] Instance nat_gt_dec (n m : nat) : Decision (n > m) := decide (m < n).
#[global] Instance nat_ge_dec (n m : nat) : Decision (n >= m) := decide (m ≤ n).

Section merkle.
Context {Val : Type} `{!EqDecision Val}.
Variable undefined : Val.
Variable hash : list Val → Val.

(** [obj[k]] on an object used as a dictionary. *)
Definition js_get (obj : gmap nat Val) (k : nat) : Val :=
  default undefined (obj !! k).

(** [obj[n - 1]]: the key [-1] is never written. *)
Definition js_get_pred (obj : gmap nat Val) (n : nat) : Val :=
  match n with
  | 0 => undefined
  | S k => js_get obj k
  end.

(** [arr[i]] on an array. *)
Definition js_index (arr : list Val) (i : nat) : Val :=
  default undefined (arr !! i).

(** [arr[i] = v] on an array: past the end the array is extended, the
    holes reading as [undefined]. *)
Definition js_array_set (arr : list Val) (i : nat) (v : Val) : list Val :=
  if decide (i < length arr) then <[i := v]> arr
  else arr ++ replicate (i - length arr) undefined ++ [v].

(** *** The fields of [this] *)
Record MerkleTree := mkMerkleTree {
  depth : nat;
  zeroValue : Val;
  leaves : list Val;
  leafNumber : nat;
  zeros : gmap nat Val;
  filledSubtrees : gmap nat Val;
  filledPaths : gmap nat (gmap nat Val);
  root : Val;
  nextIndex : nat
}.

Definition set_leaves (x : list Val) (t : MerkleTree) : MerkleTree :=
  mkMerkleTree (depth t) (zeroValue t) x (leafNumber t) (zeros t)
    (filledSubtrees t) (filledPaths t) (root t) (nextIndex t).
Definition set_zeros (x : gmap nat Val) (t : MerkleTree) : MerkleTree :=
  mkMerkleTree (depth t) (zeroValue t) (leaves t) (leafNumber t) x
    (filledSubtrees t) (filledPaths t) (root t) (nextIndex t).
Definition set_filledSubtrees (x : gmap nat Val) (t : MerkleTree) : MerkleTree :=
  mkMerkleTree (depth t) (zeroValue t) (leaves t) (leafNumber t) (zeros t)
    x (filledPaths t) (root t) (nextIndex t).
Definition set_filledPaths (x : gmap nat (gmap nat Val)) (t : MerkleTree)
  : MerkleTree :=
  mkMerkleTree (depth t) (zeroValue t) (leaves t) (leafNumber t) (zeros t)
    (filledSubtrees t) x (root t) (nextIndex t).
Definition set_root (x : Val) (t : MerkleTree) : MerkleTree :=
  mkMerkleTree (depth t) (zeroValue t) (leaves t) (leafNumber t) (zeros t)
    (filledSubtrees t) (filledPaths t) x (nextIndex t).
Definition set_nextIndex (x : nat) (t : MerkleTree) : MerkleTree :=
  mkMerkleTree (depth t) (zeroValue t) (leaves t) (leafNumber t) (zeros t)
    (filledSubtrees t) (filledPaths t) (root t) x.

(** *** The method monad *)

(** A method body: from the object before to the completion and the object
    after. *)
Definition M (A : Type) : Type := MerkleTree → completion A * MerkleTree.

#[global] Instance M_ret : MRet M := λ A a t, (Normal a, t).
#[global] Instance M_bind : MBind M := λ A B k m t,
  match m t with
  | (Normal a, t') => k a t'
  | (Throw e, t') => (Throw e, t')
  end.

Definition throw {A} (e : exn) : M A := λ t, (Throw e, t).
Definition gets {A} (f : MerkleTree → A) : M A := λ t, (Normal (f t), t).
Definition modify (f : MerkleTree → MerkleTree) : M unit :=
  λ t, (Normal (), f t).

(** [for (let i = ...; ...; i++) body], the loop's local variables passed
    along as [s]. *)
Fixpoint for_each {L} (body : nat → L → M L) (range : list nat) (s : L)
  : M L :=
  match range with
  | [] => mret s
  | i :: range => s' ← body i s; for_each body range s'
  end.

(** [this.filledPaths[i][k]]: a [TypeError] when row [i] is missing. *)
Definition get_filledPath (i k : nat) : M Val := λ t,
  match filledPaths t !! i with
  | Some row => (Normal (js_get row k), t)
  | None => (Throw TypeError, t)
  end.

(** [this.filledPaths[i][k] = v]. *)
Definition put_filledPath (i k : nat) (v : Val) : M unit := λ t,
  match filledPaths t !! i with
  | Some row =>
      (Normal (), set_filledPaths (<[i := <[k := v]> row]> (filledPaths t)) t)
  | None => (Throw TypeError, t)
  end.

(** *** [hash] and [hashLeftRight] (lines 53-66) *)
Definition hashLeftRight (lft rgt : Val) : Val := hash [lft; rgt].

(** *** The constructor (lines 13-51) *)

(** Lines 14-27; [root] and [nextIndex] are assigned at the end. *)
Definition fresh (depth0 : nat) (zeroValue0 : Val) : MerkleTree :=
  {| depth := depth0;
     zeroValue := zeroValue0;
     leaves := [];
     leafNumber := 2 ^ depth0;
     zeros := {[ 0 := zeroValue0 ]};
     filledSubtrees := {[ 0 := zeroValue0 ]};
     filledPaths := {[ 0 := ∅ ]};
     root := undefined;
     nextIndex := 0 |}.

(** Lines 30-32. *)
Definition init_level (i : nat) (_ : unit) : M unit :=
  z ← gets (λ t, hashLeftRight (js_get_pred (zeros t) i) (js_get_pred (zeros t) i));
  modify (λ t, set_zeros (<[i := z]> (zeros t)) t);;
  z' ← gets (λ t, js_get (zeros t) i);
  modify (λ t, set_filledSubtrees (<[i := z']> (filledSubtrees t)) t);;
  modify (λ t, set_filledPaths (<[i := ∅]> (filledPaths t)) t).

(** Lines 37-41. *)
Definition seed_entry (i j : nat) (_ : unit) : M unit :=
  if decide (i = 1) then
    z ← gets zeroValue;
    put_filledPath i j (hashLeftRight z z)
  else
    s ← gets (λ t, js_get_pred (filledSubtrees t) i);
    put_filledPath i j (hashLeftRight s s).

(** Lines 36-42. *)
Definition seed_level (i : nat) (_ : unit) : M unit :=
  d ← gets depth;
  for_each (seed_entry i) (seq 0 (2 ^ (d - i))) ().

(** Lines 29-50, run on the object of lines 14-27. *)
Definition construct : M unit :=
  d ← gets depth;
  for_each init_level (seq 1 (d - 1)) ();;
  for_each seed_level (seq 1 (d - 1)) ();;
  r ← gets (λ t, hashLeftRight (js_get_pred (zeros t) (depth t))
                               (js_get_pred (zeros t) (depth t)));
  modify (set_root r);;
  modify (set_nextIndex 0).

(** [new MerkleTree(depth, zeroValue)]: the completion and the object. *)
Definition new_MerkleTree (depth0 : nat) (zeroValue0 : Val)
  : completion unit * MerkleTree :=
  construct (fresh depth0 zeroValue0).

(** *** [insert] (lines 69-104) *)

(** Lines 82-99; the loop's locals are [(curIdx, currentLevelHash)]. *)
Definition insert_level (i : nat) (s : nat * Val) : M (nat * Val) :=
  let '(curIdx, currentLevelHash) := s in
  '(lft, rgt) ←
    (if decide (curIdx mod 2 = 0) then
       z ← gets (λ t, js_get (zeros t) i);
       modify (λ t, set_filledSubtrees
                      (<[i := currentLevelHash]> (filledSubtrees t)) t);;
       put_filledPath i curIdx currentLevelHash;;
       put_filledPath i (curIdx + 1) z;;
       mret (currentLevelHash, z)
     else
       l ← gets (λ t, js_get (filledSubtrees t) i);
       put_filledPath i (curIdx - 1) l;;
       put_filledPath i curIdx currentLevelHash;;
       mret (l, currentLevelHash));
  mret (curIdx / 2, hashLeftRight lft rgt).

(** Lines 70-103. *)
Definition insert (leaf : Val) : M unit :=
  n ← gets nextIndex;
  cap ← gets leafNumber;
  if decide (n + 1 > cap) then throw (Error msg_max_capacity)
  else
    modify (set_nextIndex (n + 1));;
    d ← gets depth;
    s ← for_each insert_level (seq 0 d) (n, leaf);
    modify (set_root s.2);;
    modify (λ t, set_leaves (leaves t ++ [leaf]) t).

(** *** [leafExists] (lines 106-134) *)

(** Lines 121-130. *)
Definition verify_level (path : list Val) (i : nat) (s : nat * Val)
  : M (nat * Val) :=
  let '(curIdx, currentLevelHash) := s in
  let '(lft, rgt) :=
    if decide (curIdx mod 2 = 0) then (currentLevelHash, js_index path i)
    else (js_index path i, currentLevelHash) in
  mret (curIdx / 2, hashLeftRight lft rgt).

(** Lines 111-133. *)
Definition leafExists (leafIndex : nat) (leaf : Val) (path : list Val)
  : M bool :=
  n ← gets nextIndex;
  if decide (leafIndex >= n) then throw (Error msg_cannot_verify)
  else
    d ← gets depth;
    s ← for_each (verify_level path) (seq 0 d) (leafIndex, leaf);
    r ← gets root;
    mret (bool_decide (r = s.2)).

(** *** [update] (lines 142-177) *)

(** Lines 157-172. *)
Definition update_level (path : list Val) (i : nat) (s : nat * Val)
  : M (nat * Val) :=
  let '(curIdx, currentLevelHash) := s in
  '(lft, rgt) ←
    (if decide (curIdx mod 2 = 0) then
       put_filledPath i curIdx currentLevelHash;;
       put_filledPath i (curIdx + 1) (js_index path i);;
       mret (currentLevelHash, js_index path i)
     else
       put_filledPath i (curIdx - 1) (js_index path i);;
       put_filledPath i curIdx currentLevelHash;;
       mret (js_index path i, currentLevelHash));
  mret (curIdx / 2, hashLeftRight lft rgt).

(** Lines 147-176. *)
Definition update (leafIndex : nat) (leaf : Val) (path : list Val) : M unit :=
  old ← gets (λ t, js_index (leaves t) leafIndex);
  ok ← leafExists leafIndex old path;
  if negb ok then throw (Error msg_mismatch)
  else
    d ← gets depth;
    s ← for_each (update_level path) (seq 0 d) (leafIndex, leaf);
    modify (set_root s.2);;
    modify (λ t, set_leaves (js_array_set (leaves t) leafIndex leaf) t).

(** *** [getPathUpdate] (lines 183-204) *)

(** Lines 193-200; the locals are [(curIdx, path, leafIndexes)]. *)
Definition path_level (i : nat) (s : nat * list Val * list (nat * nat))
  : M (nat * list Val * list (nat * nat)) :=
  let '(curIdx, path, leafIndexes) := s in
  let sib := if decide (curIdx mod 2 = 0) then curIdx + 1 else curIdx - 1 in
  v ← get_filledPath i sib;
  mret (curIdx / 2, path ++ [v], leafIndexes ++ [(i, sib)]).

(** Lines 184-203. *)
Definition getPathUpdate (leafIndex : nat)
  : M (list Val * list (nat * nat)) :=
  n ← gets nextIndex;
  if decide (leafIndex >= n) then throw (Error msg_no_path)
  else
    d ← gets depth;
    s ← for_each path_level (seq 0 d) (leafIndex, [], []);
    mret (s.1.2, s.2).

(** *** Reference definitions the properties are stated against *)

(** The digest of node [j] at level [i] of the binary hash tree over the
    leaf assignment [f]. *)
Fixpoint node (f : nat → Val) (i j : nat) : Val :=
  match i with
  | 0 => f j
  | S i' => hashLeftRight (node f i' (2 * j)) (node f i' (2 * j + 1))
  end.

(** The leaves sequence padded with the zero value. *)
Definition padded (z : Val) (ls : list Val) (j : nat) : Val :=
  default z (ls !! j).

(** The Merkle root of [ls] padded with [z] to [2 ^ d] leaves. *)
Definition merkle_root (d : nat) (z : Val) (ls : list Val) : Val :=
  node (padded z ls) d 0.

(** The digest of an all-zero subtree of height [i]. *)
Fixpoint zero_at (z : Val) (i : nat) : Val :=
  match i with
  | 0 => z
  | S i' => hashLeftRight (zero_at z i') (zero_at z i')
  end.

(** The sibling of position [c] within its level. *)
Definition sibling (c : nat) : nat :=
  if decide (c mod 2 = 0) then c + 1 else c - 1.

(** [curIdx] after [i] rounds of [curIdx = parseInt(curIdx / 2)]. *)
Definition curIdx_at (leafIndex i : nat) : nat :=
  Nat.iter i (λ c, c / 2) leafIndex.

(** [insert] called on each element of [ls] in turn. *)
Fixpoint insert_all (ls : list Val) : M unit :=
  match ls with
  | [] => mret ()
  | leaf :: ls => insert leaf;; insert_all ls
  end.

(** Trees a program can hold: built by the constructor, then changed by
    successful calls of [insert] and [update]. *)
Inductive reachable : MerkleTree → Prop :=
| reachable_new d z t :
    new_MerkleTree d z = (Normal (), t) → reachable t
| reachable_insert t leaf t' :
    reachable t → insert leaf t = (Normal (), t') → reachable t'
| reachable_update t k leaf path t' :
    reachable t → update k leaf path t = (Normal (), t') → reachable t'.

(** What every reachable tree satisfies structurally. *)
Record wf (t : MerkleTree) : Prop := {
  wf_capacity : leafNumber t = 2 ^ depth t;
  wf_next : nextIndex t ≤ 2 ^ depth t;
  wf_leaves : length (leaves t) = nextIndex t;
  wf_rows : ∀ i, i < depth t → is_Some (filledPaths t !! i)
}.

(** A read-only call, and running a sequence of them, each on the state
    the previous one left, whatever its completion. *)
Inductive read_call :=
| CallLeafExists (leafIndex : nat) (leaf : Val) (path : list Val)
| CallGetPathUpdate (leafIndex : nat).

Definition run_read (c : read_call) (t : MerkleTree) : MerkleTree :=
  match c with
  | CallLeafExists k leaf path => (leafExists k leaf path t).2
  | CallGetPathUpdate k => (getPathUpdate k t).2
  end.

Definition run_reads (cs : list read_call) (t : MerkleTree) : MerkleTree :=
  foldl (λ t c, run_read c t) t cs.

(** *** Auxiliary notions of the proofs *)

(** The digest of the parent of position [c], from the digest [h] at [c]
    and the digest [p] at its sibling. *)
Definition combine (c : nat) (h p : Val) : Val :=
  if decide (c mod 2 = 0) then hashLeftRight h p else hashLeftRight p h.

(** [fp[i][j]] on a two-level dictionary. *)
Definition lookup2 (fp : gmap nat (gmap nat Val)) (i j : nat) : Val :=
  match fp !! i with
  | Some row => js_get row j
  | None => undefined
  end.

(** [this.filledPaths[i][j]], read as [undefined] when row [i] is
    missing. *)
Definition filledPath_at (t : MerkleTree) (i j : nat) : Val :=
  lookup2 (filledPaths t) i j.

(** The entry [(i, j)] of a two-level dictionary, [None] when absent. *)
Definition entry (fp : gmap nat (gmap nat Val)) (i j : nat) : option Val :=
  row ← fp !! i; row !! j.

(** The two-input hash has no collisions. *)
Definition collision_free : Prop :=
  ∀ a b a' b', hashLeftRight a b = hashLeftRight a' b' → a = a' ∧ b = b'.

(** A computation that leaves [this] as it found it, whatever its
    completion. *)
Definition readonly {A} (m : M A) : Prop := ∀ t, (m t).2 = t.

(** The first [n] levels are initialised: the state after the loop of
    lines 29-33 has run up to level [n]. *)
Definition levels_ok (d : nat) (z : Val) (n : nat) (t : MerkleTree) : Prop :=
  depth t = d ∧ zeroValue t = z ∧ leaves t = [] ∧ leafNumber t = 2 ^ d
  ∧ nextIndex t = 0
  ∧ ∀ l, l < n →
      js_get (zeros t) l = zero_at z l
      ∧ js_get (filledSubtrees t) l = zero_at z l
      ∧ is_Some (filledPaths t !! l).

(** Levels [1 .. n-1] of [filledPaths] hold the all-zero digests. *)
Definition seeded (d : nat) (z : Val) (n : nat) (t : MerkleTree) : Prop :=
  ∀ l j, 1 ≤ l < n → j < 2 ^ (d - l) →
    ∃ row, filledPaths t !! l = Some row ∧ js_get row j = zero_at z l.

(** The cache agrees with the hash tree over the padded leaves: every
    entry of [filledPaths] a path can read holds the digest of its node,
    [filledSubtrees] holds the left sibling the next insertion needs, and
    [root] is the Merkle root. *)
Record synced (t : MerkleTree) : Prop := {
  synced_wf : wf t;
  synced_zeros : ∀ i, i < depth t →
    js_get (zeros t) i = zero_at (zeroValue t) i;
  synced_paths : ∀ i j, i < depth t → j < 2 ^ (depth t - i) →
    (i = 0 → j < 2 * ((nextIndex t + 1) / 2)) →
    lookup2 (filledPaths t) i j = node (padded (zeroValue t) (leaves t)) i j;
  synced_subtrees : ∀ i, i < depth t → (nextIndex t / 2 ^ i) mod 2 = 1 →
    js_get (filledSubtrees t) i
    = node (padded (zeroValue t) (leaves t)) i (nextIndex t / 2 ^ i - 1);
  synced_root : 0 < depth t ∨ 0 < nextIndex t →
    root t = merkle_root (depth t) (zeroValue t) (leaves t)
}.

(** No level still waits, in [filledSubtrees], for the digest of a left
    subtree that holds leaf [k]. *)
Definition settled (t : MerkleTree) (k : nat) : Prop :=
  ∀ i, i < depth t → (nextIndex t / 2 ^ i) mod 2 = 1 →
    k / 2 ^ i ≠ nextIndex t / 2 ^ i - 1.

(** One level of the walk of [leafExists] (lines 121-130), as a function of
    the loop's locals [(curIdx, currentLevelHash)]. *)
Definition climb_step (path : list Val) (s : nat * Val) (i : nat)
  : nat * Val :=
  (s.1 / 2, combine s.1 s.2 (js_index path i)).

(** The digest the walk of [leafExists] ends with, which [leafExists]
    compares with [root]. *)
Definition climb (path : list Val) (d k : nat) (leaf : Val) : Val :=
  (foldl (climb_step path) (k, leaf) (seq 0 d)).2.

(** Trees built by the constructor and changed by successful calls of
    [insert], and of [update] at leaves that are [settled] when updated (on a
    full tree every leaf is). *)
Inductive clean : MerkleTree → Prop :=
| clean_new d z t :
    new_MerkleTree d z = (Normal (), t) → clean t
| clean_insert t leaf t' :
    clean t → insert leaf t = (Normal (), t') → clean t'
| clean_update t k leaf path t' :
    clean t → settled t k → update k leaf path t = (Normal (), t') →
    clean t'.

(** *** The methods with the conversions of [hash] (lines 53-59)

    [hash] converts every value of the array it is given with [bigInt(x)]
    (line 55), and [bigInt(undefined)] throws a [TypeError].  The
    definitions below, named with a final [T], are the methods with that
    throw, statement by statement in the order of the source: a call that
    hashes [undefined] ends there, keeping what it had written.  As long as
    no [undefined] is hashed they are the methods above. *)

(** [hash] (lines 53-59) on an array. *)
Definition hashT (values : list Val) : M Val :=
  if decide (undefined ∈ values) then throw TypeError
  else mret (hash values).

(** [hashLeftRight] (lines 64-66). *)
Definition hashLeftRightT (lft rgt : Val) : M Val := hashT [lft; rgt].

(** Lines 30-32. *)
Definition init_levelT (i : nat) (_ : unit) : M unit :=
  l ← gets (λ t, js_get_pred (zeros t) i);
  z ← hashLeftRightT l l;
  modify (λ t, set_zeros (<[i := z]> (zeros t)) t);;
  z' ← gets (λ t, js_get (zeros t) i);
  modify (λ t, set_filledSubtrees (<[i := z']> (filledSubtrees t)) t);;
  modify (λ t, set_filledPaths (<[i := ∅]> (filledPaths t)) t).

(** Lines 37-41. *)
Definition seed_entryT (i j : nat) (_ : unit) : M unit :=
  if decide (i = 1) then
    z ← gets zeroValue;
    h ← hashLeftRightT z z;
    put_filledPath i j h
  else
    s ← gets (λ t, js_get_pred (filledSubtrees t) i);
    h ← hashLeftRightT s s;
    put_filledPath i j h.

(** Lines 36-42. *)
Definition seed_levelT (i : nat) (_ : unit) : M unit :=
  d ← gets depth;
  for_each (seed_entryT i) (seq 0 (2 ^ (d - i))) ().

(** Lines 29-50, run on the object of lines 14-27. *)
Definition constructT : M unit :=
  d ← gets depth;
  for_each init_levelT (seq 1 (d - 1)) ();;
  for_each seed_levelT (seq 1 (d - 1)) ();;
  l ← gets (λ t, js_get_pred (zeros t) (depth t));
  r ← hashLeftRightT l l;
  modify (set_root r);;
  modify (set_nextIndex 0).

(** [new MerkleTree(depth, zeroValue)]. *)
Definition new_MerkleTreeT (depth0 : nat) (zeroValue0 : Val)
  : completion unit * MerkleTree :=
  constructT (fresh depth0 zeroValue0).

(** Lines 82-99 of [insert]. *)
Definition insert_levelT (i : nat) (s : nat * Val) : M (nat * Val) :=
  let '(curIdx, currentLevelHash) := s in
  '(lft, rgt) ←
    (if decide (curIdx mod 2 = 0) then
       z ← gets (λ t, js_get (zeros t) i);
       modify (λ t, set_filledSubtrees
                      (<[i := currentLevelHash]> (filledSubtrees t)) t);;
       put_filledPath i curIdx currentLevelHash;;
       put_filledPath i (curIdx + 1) z;;
       mret (currentLevelHash, z)
     else
       l ← gets (λ t, js_get (filledSubtrees t) i);
       put_filledPath i (curIdx - 1) l;;
       put_filledPath i curIdx currentLevelHash;;
       mret (l, currentLevelHash));
  h ← hashLeftRightT lft rgt;
  mret (curIdx / 2, h).

(** Lines 70-103. *)
Definition insertT (leaf : Val) : M unit :=
  n ← gets nextIndex;
  cap ← gets leafNumber;
  if decide (n + 1 > cap) then throw (Error msg_max_capacity)
  else
    modify (set_nextIndex (n + 1));;
    d ← gets depth;
    s ← for_each insert_levelT (seq 0 d) (n, leaf);
    modify (set_root s.2);;
    modify (λ t, set_leaves (leaves t ++ [leaf]) t).

(** Lines 121-130 of [leafExists]. *)
Definition verify_levelT (path : list Val) (i : nat) (s : nat * Val)
  : M (nat * Val) :=
  let '(curIdx, currentLevelHash) := s in
  let '(lft, rgt) :=
    if decide (curIdx mod 2 = 0) then (currentLevelHash, js_index path i)
    else (js_index path i, currentLevelHash) in
  h ← hashLeftRightT lft rgt;
  mret (curIdx / 2, h).

(** Lines 111-133. *)
Definition leafExistsT (leafIndex : nat) (leaf : Val) (path : list Val)
  : M bool :=
  n ← gets nextIndex;
  if decide (leafIndex >= n) then throw (Error msg_cannot_verify)
  else
    d ← gets depth;
    s ← for_each (verify_levelT path) (seq 0 d) (leafIndex, leaf);
    r ← gets root;
    mret (bool_decide (r = s.2)).

(** Lines 157-172 of [update]. *)
Definition update_levelT (path : list Val) (i : nat) (s : nat * Val)
  : M (nat * Val) :=
  let '(curIdx, currentLevelHash) := s in
  '(lft, rgt) ←
    (if decide (curIdx mod 2 = 0) then
       put_filledPath i curIdx currentLevelHash;;
       put_filledPath i (curIdx + 1) (js_index path i);;
       mret (currentLevelHash, js_index path i)
     else
       put_filledPath i (curIdx - 1) (js_index path i);;
       put_filledPath i curIdx currentLevelHash;;
       mret (js_index path i, currentLevelHash));
  h ← hashLeftRightT lft rgt;
  mret (curIdx / 2, h).

(** Lines 147-176. *)
Definition updateT (leafIndex : nat) (leaf : Val) (path : list Val)
  : M unit :=
  old ← gets (λ t, js_index (leaves t) leafIndex);
  ok ← leafExistsT leafIndex old path;
  if negb ok then throw (Error msg_mismatch)
  else
    d ← gets depth;
    s ← for_each (update_levelT path) (seq 0 d) (leafIndex, leaf);
    modify (set_root s.2);;
    modify (λ t, set_leaves (js_array_set (leaves t) leafIndex leaf) t).

(** Trees a program can hold, with the conversions of [hash]. *)
Inductive reachableT : MerkleTree → Prop :=
| reachableT_new d z t :
    new_MerkleTreeT d z = (Normal (), t) → reachableT t
| reachableT_insert t leaf t' :
    reachableT t → insertT leaf t = (Normal (), t') → reachableT t'
| reachableT_update t k leaf path t' :
    reachableT t → updateT k leaf path t = (Normal (), t') → reachableT t'.

(** The two-input hash returns a digest, never [undefined]. *)
Definition digest_hash : Prop := ∀ a b, hashLeftRight a b ≠ undefined.

(** Whenever [mT] completes normally, [m] completes the same way. *)
Definition refines {A} (mT m : M A) : Prop :=
  ∀ t a t', mT t = (Normal a, t') → m t = (Normal a, t').

(** ** Proofs *)

#[local] Arguments Nat.div : simpl never.
#[local] Arguments Nat.modulo : simpl never.
#[local] Arguments Nat.pow : simpl never.

(** [lia] is given the quotient and remainder of [c] by two. *)
Ltac parity c :=
  pose proof (Nat.div_mod_eq c 2);
  pose proof (Nat.mod_upper_bound c 2 ltac:(lia)).

(** Preservation of [wf], for [eauto]. *)
Create HintDb merkle.

(** *** The monad *)

Lemma bind_normal {A B} (m : M A) (k : A → M B) t a t' :
  m t = (Normal a, t') → (m ≫= k) t = k a t'.
Proof. unfold mbind, M_bind. by intros ->. Qed.

Lemma bind_throw {A B} (m : M A) (k : A → M B) t e t' :
  m t = (Throw e, t') → (m ≫= k) t = (Throw e, t').
Proof. unfold mbind, M_bind. by intros ->. Qed.

Lemma bind_gets {A B} (f : MerkleTree → A) (k : A → M B) t :
  (gets f ≫= k) t = k (f t) t.
Proof. done. Qed.

Lemma bind_modify {B} (f : MerkleTree → MerkleTree) (k : unit → M B) t :
  (modify f ≫= k) t = k () (f t).
Proof. done. Qed.

Lemma bind_ret {A B} (a : A) (k : A → M B) t : (mret a ≫= k) t = k a t.
Proof. done. Qed.

(** A loop whose body keeps an invariant indexed by the counter completes
    normally and establishes the invariant at the bound. *)
Lemma for_each_seq_inv {L} (body : nat → L → M L)
    (I : nat → L → MerkleTree → Prop) len : ∀ i0 s t,
  I i0 s t →
  (∀ i s t, i0 ≤ i < i0 + len → I i s t →
     ∃ s' t', body i s t = (Normal s', t') ∧ I (S i) s' t') →
  ∃ s' t', for_each body (seq i0 len) s t = (Normal s', t')
           ∧ I (i0 + len) s' t'.
Proof.
  induction len as [|len IH]; intros i0 s t HI Hstep; simpl.
  - exists s, t. by rewrite Nat.add_0_r.
  - destruct (Hstep i0 s t) as (s1 & t1 & Hb & HI1); [lia|done|].
    destruct (IH (S i0) s1 t1) as (s2 & t2 & Hl & HI2); [done| |].
    + intros i s' t' Hi. apply Hstep. lia.
    + exists s2, t2. split.
      * by rewrite (bind_normal _ _ _ _ _ Hb).
      * by replace (i0 + S len) with (S i0 + len) by lia.
Qed.

(** A loop whose body never writes and never throws neither writes nor
    throws. *)
Lemma for_each_pure {L} (body : nat → L → M L) range : ∀ s t,
  (∀ i s t, ∃ s', body i s t = (Normal s', t)) →
  ∃ s', for_each body range s t = (Normal s', t).
Proof.
  induction range as [|i range IH]; intros s t Hb; simpl; [by eexists|].
  destruct (Hb i s t) as [s1 Hs1]. rewrite (bind_normal _ _ _ _ _ Hs1).
  by apply IH.
Qed.

(** A loop whose body never writes never writes, whatever its
    completion. *)
Lemma for_each_readonly {L} (body : nat → L → M L) range : ∀ s t,
  (∀ i s t, (body i s t).2 = t) → (for_each body range s t).2 = t.
Proof.
  induction range as [|i range IH]; intros s t Hb; simpl; [done|].
  unfold mbind, M_bind. pose proof (Hb i s t) as Hi.
  destruct (body i s t) as [[s1|e] t1]; simpl in Hi; subst t1; [|done].
  by apply IH.
Qed.

(** *** Dictionaries *)

Lemma js_get_insert_eq (obj : gmap nat Val) k v : js_get (<[k := v]> obj) k = v.
Proof. unfold js_get. by rewrite lookup_insert_eq. Qed.

Lemma js_get_insert_ne (obj : gmap nat Val) k k' v :
  k ≠ k' → js_get (<[k := v]> obj) k' = js_get obj k'.
Proof. intros. unfold js_get. by rewrite lookup_insert_ne. Qed.

Lemma put_filledPath_row i k v t row :
  filledPaths t !! i = Some row →
  put_filledPath i k v t
  = (Normal (), set_filledPaths (<[i := <[k := v]> row]> (filledPaths t)) t).
Proof. unfold put_filledPath. by intros ->. Qed.

Lemma get_filledPath_row i k t row :
  filledPaths t !! i = Some row →
  get_filledPath i k t = (Normal (js_get row k), t).
Proof. unfold get_filledPath. by intros ->. Qed.

(** *** The constructor *)

Lemma levels_ok_fresh d z : levels_ok d z 1 (fresh d z).
Proof.
  repeat split; simpl; try done; assert (l = 0) as -> by lia.
  - unfold js_get. by rewrite lookup_singleton_eq.
  - unfold js_get. by rewrite lookup_singleton_eq.
  - by rewrite lookup_singleton_eq.
Qed.

Lemma init_level_ok d z i t :
  1 ≤ i → levels_ok d z i t →
  ∃ t', init_level i () t = (Normal (), t') ∧ levels_ok d z (S i) t'
        ∧ root t' = root t.
Proof.
  intros Hi (Hd & Hz & Hl & Hc & Hn & Hlev).
  eexists. split; [reflexivity|]. simpl. split; [|done].
  repeat split; simpl; try done.
  all: destruct (decide (l = i)) as [->|Hne].
  all: rewrite ?js_get_insert_eq, ?lookup_insert_eq; try done.
  all: try (rewrite ?js_get_insert_ne, ?lookup_insert_ne by done;
            apply Hlev; lia).
  all: destruct i as [|i]; [lia|]; simpl.
  all: by destruct (Hlev i) as (-> & _); [lia|].
Qed.

Lemma init_levels_ok d z :
  ∃ t, for_each init_level (seq 1 (d - 1)) () (fresh d z) = (Normal (), t)
       ∧ levels_ok d z (Nat.max d 1) t ∧ root t = undefined.
Proof.
  destruct (for_each_seq_inv init_level
              (λ i _ t, levels_ok d z i t ∧ root t = undefined)
              (d - 1) 1 () (fresh d z)) as ([] & t & Hrun & Hok & Hroot).
  - split; [apply levels_ok_fresh|done].
  - intros i [] t Hi [Hok Hroot].
    destruct (init_level_ok d z i t) as (t' & Hrun & Hok' & Hr); [lia|done|].
    exists (), t'. split; [done|]. split; [done|congruence].
  - exists t. replace (Nat.max d 1) with (1 + (d - 1)) by lia. done.
Qed.

Lemma put_filledPath_levels_ok d z n i k v t :
  levels_ok d z n t → i < n →
  ∃ row, filledPaths t !! i = Some row
    ∧ put_filledPath i k v t
      = (Normal (), set_filledPaths (<[i := <[k := v]> row]> (filledPaths t)) t)
    ∧ levels_ok d z n
        (set_filledPaths (<[i := <[k := v]> row]> (filledPaths t)) t).
Proof.
  intros (Hd & Hz & Hl & Hc & Hn & Hlev) Hi.
  destruct (Hlev i Hi) as (_ & _ & [row Hrow]).
  exists row. split; [done|]. split; [by apply put_filledPath_row|].
  repeat split; simpl; try done; try (by apply Hlev).
  destruct (decide (i = l)) as [->|Hne].
  - by rewrite lookup_insert_eq.
  - rewrite lookup_insert_ne by done. by apply Hlev.
Qed.

(** The digest [seed_entry] writes at level [i] is the all-zero digest of
    that level. *)
Lemma seed_entry_ok d z n i j t :
  levels_ok d z n t → 1 ≤ i < n →
  ∃ row, filledPaths t !! i = Some row
    ∧ seed_entry i j () t
      = (Normal (),
         set_filledPaths (<[i := <[j := zero_at z i]> row]> (filledPaths t)) t)
    ∧ levels_ok d z n
        (set_filledPaths (<[i := <[j := zero_at z i]> row]> (filledPaths t)) t).
Proof.
  intros Hok Hi.
  destruct (put_filledPath_levels_ok d z n i j (zero_at z i) t Hok)
    as (row & Hrow & Hput & Hok'); [lia|].
  exists row. split; [done|]. split; [|done].
  destruct Hok as (Hd & Hz & Hl & Hc & Hn & Hlev).
  unfold seed_entry. destruct (decide (i = 1)) as [->|Hne].
  - rewrite bind_gets, Hz. exact Hput.
  - rewrite bind_gets. destruct i as [|i]; [lia|]. simpl.
    destruct (Hlev i) as (_ & -> & _); [lia|]. exact Hput.
Qed.

Lemma seed_level_ok d z i t :
  levels_ok d z (Nat.max d 1) t → seeded d z i t → 1 ≤ i < d →
  ∃ t', seed_level i () t = (Normal (), t')
        ∧ levels_ok d z (Nat.max d 1) t' ∧ seeded d z (S i) t'
        ∧ root t' = root t.
Proof.
  intros Hok Hseed Hi. unfold seed_level. rewrite bind_gets.
  pose proof Hok as (Hd & _). rewrite Hd.
  destruct (for_each_seq_inv (seed_entry i)
    (λ j _ t', levels_ok d z (Nat.max d 1) t' ∧ seeded d z i t'
               ∧ root t' = root t
               ∧ ∀ j', j' < j → ∃ row, filledPaths t' !! i = Some row
                                  ∧ js_get row j' = zero_at z i)
    (2 ^ (d - i)) 0 () t) as ([] & t' & Hrun & Hok' & Hseed' & Hroot & Hrow).
  - do 3 (split; [done|]). intros j' Hj'. lia.
  - intros j [] t1 Hj (Hok1 & Hseed1 & Hroot1 & Hrow1).
    destruct (seed_entry_ok d z (Nat.max d 1) i j t1 Hok1)
      as (row & Hrow & Hput & Hok'); [lia|].
    eexists (), _. split; [exact Hput|]. split; [done|].
    split; [|split; [done|]].
    + intros l j' Hl Hj'. simpl. rewrite lookup_insert_ne by lia.
      by apply Hseed1.
    + intros j' Hj'. simpl. rewrite lookup_insert_eq. eexists. split; [done|].
      destruct (decide (j = j')) as [->|Hne].
      * by rewrite js_get_insert_eq.
      * rewrite js_get_insert_ne by done.
        destruct (Hrow1 j') as (row' & Hrow' & Hget); [lia|]. congruence.
  - exists t'. do 2 (split; [done|]). split; [|done].
    intros l j Hl Hj. destruct (decide (l = i)) as [->|Hne].
    + apply Hrow. simpl. lia.
    + apply Hseed'; [lia|done].
Qed.

(** What the constructor establishes. *)
Lemma construct_ok d z :
  ∃ t, new_MerkleTree d z = (Normal (), t)
    ∧ levels_ok d z (Nat.max d 1) t ∧ seeded d z d t
    ∧ root t = hashLeftRight (js_get_pred (zeros t) d) (js_get_pred (zeros t) d).
Proof.
  unfold new_MerkleTree, construct. rewrite bind_gets. simpl depth.
  destruct (init_levels_ok d z) as (t1 & Hrun1 & Hok1 & _).
  rewrite (bind_normal _ _ _ _ _ Hrun1).
  destruct (for_each_seq_inv seed_level
    (λ i _ t, levels_ok d z (Nat.max d 1) t ∧ seeded d z i t)
    (d - 1) 1 () t1) as ([] & t2 & Hrun2 & Hok2 & Hseed2).
  - split; [done|]. intros l j Hl. lia.
  - intros i [] t Hi [Hok Hseed].
    destruct (seed_level_ok d z i t) as (t' & Hrun & Hok' & Hseed' & _);
      [done|done|lia|].
    by exists (), t'.
  - rewrite (bind_normal _ _ _ _ _ Hrun2).
    eexists. split; [reflexivity|].
    split; [|split].
    + destruct Hok2 as (Hd & Hz & Hl & Hc & Hn & Hlev).
      repeat split; simpl; try done; by apply Hlev.
    + intros l j Hl Hj. apply Hseed2; [lia|done].
    + simpl. by destruct Hok2 as (-> & _).
Qed.

(** *** One level of each walk *)

Lemma sibling_ne c : sibling c ≠ c.
Proof.
  unfold sibling. case_decide as Hc; [lia|].
  destruct c; [by rewrite Nat.Div0.mod_0_l in Hc|lia].
Qed.

Lemma sibling_half c : sibling c / 2 = c / 2.
Proof.
  unfold sibling. parity c.
  case_decide as Hm; symmetry;
    [apply Nat.div_unique with (r := 1)|apply Nat.div_unique with (r := 0)];
    lia.
Qed.

Lemma sibling_lt c m : c < 2 * m → sibling c < 2 * m.
Proof.
  unfold sibling. parity c. case_decide; lia.
Qed.

Lemma node_combine f i c :
  node f (S i) (c / 2) = combine c (node f i c) (node f i (sibling c)).
Proof.
  unfold combine, sibling.
  change (node f (S i) (c / 2))
    with (hashLeftRight (node f i (2 * (c / 2))) (node f i (2 * (c / 2) + 1))).
  parity c. case_decide as Hm.
  - replace (2 * (c / 2)) with c by lia.
    by replace (2 * (c / 2) + 1) with (c + 1) by lia.
  - replace (2 * (c / 2) + 1) with c by lia.
    by replace (2 * (c / 2)) with (c - 1) by lia.
Qed.

Lemma div_pow2_0 k : k / 2 ^ 0 = k.
Proof. by rewrite Nat.pow_0_r, Nat.div_1_r. Qed.

Lemma div_pow2_succ k i : k / 2 ^ S i = k / 2 ^ i / 2.
Proof. by rewrite Nat.Div0.div_div, Nat.pow_succ_r', Nat.mul_comm. Qed.

Lemma curIdx_at_div k i : curIdx_at k i = k / 2 ^ i.
Proof.
  unfold curIdx_at. induction i as [|i IH]; simpl.
  - by rewrite div_pow2_0.
  - by rewrite IH, div_pow2_succ.
Qed.

Lemma verify_level_eq path i c h t :
  verify_level path i (c, h) t
  = (Normal (c / 2, combine c h (js_index path i)), t).
Proof. unfold verify_level, combine. by case_decide. Qed.

Lemma update_level_eq path i c h t row :
  filledPaths t !! i = Some row →
  update_level path i (c, h) t
  = (Normal (c / 2, combine c h (js_index path i)),
     set_filledPaths
       (<[i := <[sibling c := js_index path i]> (<[c := h]> row)]>
          (filledPaths t)) t).
Proof.
  intros Hrow. pose proof (sibling_ne c) as Hne. revert Hne.
  unfold update_level, combine, sibling.
  case_decide; intros Hne; unfold mbind, M_bind.
  - erewrite put_filledPath_row by eassumption.
    erewrite put_filledPath_row by (simpl; apply lookup_insert_eq).
    simpl. by rewrite insert_insert_eq.
  - erewrite put_filledPath_row by eassumption.
    erewrite put_filledPath_row by (simpl; apply lookup_insert_eq).
    simpl. rewrite insert_insert_eq.
    by rewrite (insert_insert_ne row c (c - 1)).
Qed.

Lemma insert_level_eq i c h t row :
  filledPaths t !! i = Some row →
  let p := if decide (c mod 2 = 0) then js_get (zeros t) i
           else js_get (filledSubtrees t) i in
  let fs := if decide (c mod 2 = 0) then <[i := h]> (filledSubtrees t)
            else filledSubtrees t in
  insert_level i (c, h) t
  = (Normal (c / 2, combine c h p),
     set_filledPaths
       (<[i := <[sibling c := p]> (<[c := h]> row)]> (filledPaths t))
       (set_filledSubtrees fs t)).
Proof.
  intros Hrow. pose proof (sibling_ne c) as Hne. revert Hne.
  unfold insert_level, combine, sibling.
  case_decide; intros Hne; unfold mbind, M_bind, gets, modify; simpl.
  - erewrite put_filledPath_row by (simpl; eassumption).
    erewrite put_filledPath_row by (simpl; apply lookup_insert_eq).
    simpl. by rewrite insert_insert_eq.
  - erewrite put_filledPath_row by eassumption.
    erewrite put_filledPath_row by (simpl; apply lookup_insert_eq).
    simpl. rewrite insert_insert_eq.
    rewrite (insert_insert_ne row c (c - 1)) by done. by destruct t.
Qed.

Lemma path_level_eq i c path idxs t row :
  filledPaths t !! i = Some row →
  path_level i (c, path, idxs) t
  = (Normal (c / 2, path ++ [js_get row (sibling c)],
             idxs ++ [(i, sibling c)]), t).
Proof.
  intros Hrow. unfold path_level.
  by rewrite (bind_normal _ _ _ _ _ (get_filledPath_row _ _ _ _ Hrow)).
Qed.

(** *** Methods that only read *)

Lemma readonly_bind {A B} (m : M A) (k : A → M B) :
  readonly m → (∀ a, readonly (k a)) → readonly (m ≫= k).
Proof.
  intros Hm Hk t. unfold mbind, M_bind. specialize (Hm t).
  destruct (m t) as [[a|e] t']; simpl in Hm; subst t'; [apply Hk|done].
Qed.

Lemma readonly_for_each {L} (body : nat → L → M L) range s :
  (∀ i s, readonly (body i s)) → readonly (for_each body range s).
Proof. intros Hb t. apply for_each_readonly. intros. apply Hb. Qed.

Lemma readonly_get_filledPath i k : readonly (get_filledPath i k).
Proof. intros t. unfold get_filledPath. by destruct (filledPaths t !! i). Qed.

Lemma readonly_leafExists k leaf path : readonly (leafExists k leaf path).
Proof.
  unfold leafExists.
  apply readonly_bind; [done|]. intros n. case_decide; [done|].
  apply readonly_bind; [done|]. intros d.
  apply readonly_bind; [|intros s; by apply readonly_bind].
  apply readonly_for_each. intros i [c h] t. by rewrite verify_level_eq.
Qed.

Lemma readonly_getPathUpdate k : readonly (getPathUpdate k).
Proof.
  unfold getPathUpdate.
  apply readonly_bind; [done|]. intros n. case_decide; [done|].
  apply readonly_bind; [done|]. intros d.
  apply readonly_bind; [|done].
  apply readonly_for_each. intros i [[c path] idxs]. unfold path_level.
  apply readonly_bind; [apply readonly_get_filledPath|done].
Qed.

(** *** The loops of [update] and [insert], structurally *)

Lemma entry_insert_ne_level fp i row l j :
  i ≠ l → entry (<[i := row]> fp) l j = entry fp l j.
Proof. intros. unfold entry. by rewrite lookup_insert_ne. Qed.

Lemma entry_insert_ne_pos fp i row c s h p j :
  fp !! i = Some row → j ≠ c → j ≠ s →
  entry (<[i := <[s := p]> (<[c := h]> row)]> fp) i j = entry fp i j.
Proof.
  intros Hrow Hc Hs. unfold entry. rewrite lookup_insert_eq, Hrow. simpl.
  by rewrite !lookup_insert_ne.
Qed.

(** The loop of [update] over levels [0 .. d-1] completes normally when
    those rows exist; it writes [filledPaths] only, and there only the
    positions on the path of [k] and their siblings. *)
Lemma update_loop path k leaf d t :
  (∀ i, i < d → is_Some (filledPaths t !! i)) →
  ∃ h fp,
    for_each (update_level path) (seq 0 d) (k, leaf) t
    = (Normal (k / 2 ^ d, h), set_filledPaths fp t)
    ∧ (∀ l, is_Some (fp !! l) ↔ is_Some (filledPaths t !! l))
    ∧ (∀ l j, (l < d → j ≠ k / 2 ^ l ∧ j ≠ sibling (k / 2 ^ l)) →
         entry fp l j = entry (filledPaths t) l j).
Proof.
  intros Hrows.
  destruct (for_each_seq_inv (update_level path)
    (λ i s t', s.1 = k / 2 ^ i ∧ ∃ fp, t' = set_filledPaths fp t
       ∧ (∀ l, is_Some (fp !! l) ↔ is_Some (filledPaths t !! l))
       ∧ (∀ l j, (l < i → j ≠ k / 2 ^ l ∧ j ≠ sibling (k / 2 ^ l)) →
            entry fp l j = entry (filledPaths t) l j))
    d 0 (k, leaf) t) as ([c h] & t' & Hrun & Hc & fp & -> & Hdom & Hent).
  - split; [by rewrite div_pow2_0|].
    exists (filledPaths t). split; [by destruct t|done].
  - intros i [c h] t1 Hi (Hc & fp & -> & Hdom & Hent). simpl in Hc. subst c.
    destruct (proj2 (Hdom i)) as [row Hrow]; [apply Hrows; lia|].
    eexists _, _. split; [by apply update_level_eq|]. simpl.
    split; [by rewrite div_pow2_succ|].
    eexists. split; [reflexivity|]. split.
    + intros l. rewrite <- Hdom. destruct (decide (i = l)) as [->|Hne].
      * rewrite lookup_insert_eq, Hrow. by split.
      * by rewrite lookup_insert_ne.
    + intros l j Hlj. destruct (decide (i = l)) as [->|Hne].
      * destruct Hlj as [Hj1 Hj2]; [lia|].
        rewrite entry_insert_ne_pos by done. apply Hent. lia.
      * rewrite entry_insert_ne_level by done. apply Hent.
        intros Hl. apply Hlj. lia.
  - simpl in Hc. subst c. by exists h, fp.
Qed.

(** The loop of [insert] completes normally when the rows exist; it
    writes [filledPaths] and [filledSubtrees] only. *)
Lemma insert_loop_frame k leaf d t :
  (∀ i, i < d → is_Some (filledPaths t !! i)) →
  ∃ h fs fp,
    for_each insert_level (seq 0 d) (k, leaf) t
    = (Normal (k / 2 ^ d, h), set_filledPaths fp (set_filledSubtrees fs t))
    ∧ (∀ l, is_Some (fp !! l) ↔ is_Some (filledPaths t !! l)).
Proof.
  intros Hrows.
  destruct (for_each_seq_inv insert_level
    (λ i s t', s.1 = k / 2 ^ i
       ∧ ∃ fs fp, t' = set_filledPaths fp (set_filledSubtrees fs t)
       ∧ (∀ l, is_Some (fp !! l) ↔ is_Some (filledPaths t !! l)))
    d 0 (k, leaf) t) as ([c h] & t' & Hrun & Hc & fs & fp & -> & Hdom).
  - split; [by rewrite div_pow2_0|].
    exists (filledSubtrees t), (filledPaths t). split; [by destruct t|done].
  - intros i [c h] t1 Hi (Hc & fs & fp & -> & Hdom). simpl in Hc. subst c.
    destruct (proj2 (Hdom i)) as [row Hrow]; [apply Hrows; lia|].
    eexists _, _. split; [by apply insert_level_eq|]. simpl.
    split; [by rewrite div_pow2_succ|].
    eexists _, _. split; [reflexivity|].
    intros l. rewrite <- Hdom. destruct (decide (i = l)) as [->|Hne].
    + rewrite lookup_insert_eq, Hrow. by split.
    + by rewrite lookup_insert_ne.
  - simpl in Hc. subst c. by exists h, fs, fp.
Qed.

(** *** The methods on well-formed trees *)

Lemma leafExists_normal k leaf path t :
  k < nextIndex t → ∃ b, leafExists k leaf path t = (Normal b, t).
Proof.
  intros Hk. unfold leafExists. rewrite bind_gets.
  case_decide; [unfold ge in *; lia|]. rewrite bind_gets.
  destruct (for_each_pure (verify_level path) (seq 0 (depth t)) (k, leaf) t)
    as [s Hs].
  { intros i [c h] t1. rewrite verify_level_eq. by eexists. }
  rewrite (bind_normal _ _ _ _ _ Hs). by eexists.
Qed.

Lemma leafExists_throw k leaf path t :
  nextIndex t ≤ k →
  leafExists k leaf path t = (Throw (Error msg_cannot_verify), t).
Proof.
  intros Hk. unfold leafExists. rewrite bind_gets.
  case_decide; [done|unfold ge in *; lia].
Qed.

Lemma insert_throw leaf t :
  leafNumber t < nextIndex t + 1 →
  insert leaf t = (Throw (Error msg_max_capacity), t).
Proof.
  intros Hk. unfold insert. rewrite !bind_gets.
  case_decide; [done|unfold gt in *; lia].
Qed.

Lemma insert_normal leaf t :
  wf t → nextIndex t < 2 ^ depth t →
  ∃ h fs fp,
    insert leaf t
    = (Normal (),
       set_leaves (leaves t ++ [leaf])
         (set_root h
            (set_filledPaths fp
               (set_filledSubtrees fs
                  (set_nextIndex (nextIndex t + 1) t)))))
    ∧ (∀ l, is_Some (fp !! l) ↔ is_Some (filledPaths t !! l)).
Proof.
  intros [Hcap Hnext Hlen Hrows] Hk. unfold insert. rewrite !bind_gets.
  case_decide; [unfold gt in *; lia|]. rewrite bind_modify, bind_gets.
  destruct (insert_loop_frame (nextIndex t) leaf (depth t)
              (set_nextIndex (nextIndex t + 1) t))
    as (h & fs & fp & Hrun & Hdom); [done|].
  simpl depth. rewrite (bind_normal _ _ _ _ _ Hrun).
  exists h, fs, fp. split; [done|]. exact Hdom.
Qed.

Lemma update_normal k leaf path t :
  wf t →
  leafExists k (js_index (leaves t) k) path t = (Normal true, t) →
  ∃ h fp,
    update k leaf path t
    = (Normal (),
       set_leaves (<[k := leaf]> (leaves t))
         (set_root h (set_filledPaths fp t)))
    ∧ k < nextIndex t
    ∧ (∀ l, is_Some (fp !! l) ↔ is_Some (filledPaths t !! l))
    ∧ (∀ l j, (l < depth t → j ≠ k / 2 ^ l ∧ j ≠ sibling (k / 2 ^ l)) →
         entry fp l j = entry (filledPaths t) l j).
Proof.
  intros [Hcap Hnext Hlen Hrows] Hex.
  assert (k < nextIndex t) as Hk.
  { destruct (decide (k < nextIndex t)) as [|Hge]; [done|].
    rewrite leafExists_throw in Hex by lia. done. }
  unfold update. rewrite bind_gets, (bind_normal _ _ _ _ _ Hex). simpl.
  rewrite bind_gets.
  destruct (update_loop path k leaf (depth t) t Hrows)
    as (h & fp & Hrun & Hdom & Hent).
  rewrite (bind_normal _ _ _ _ _ Hrun).
  exists h, fp. split; [|done]. simpl.
  rewrite bind_modify. unfold modify, js_array_set. simpl.
  case_decide; [done|lia].
Qed.

Lemma wf_new d z t : new_MerkleTree d z = (Normal (), t) → wf t.
Proof.
  intros Hnew. destruct (construct_ok d z) as (t' & Hnew' & Hok & _ & _).
  assert (t' = t) as -> by congruence.
  destruct Hok as (Hd & Hz & Hl & Hc & Hn & Hlev).
  split.
  - by rewrite Hc, Hd.
  - rewrite Hn. lia.
  - by rewrite Hl, Hn.
  - intros i Hi. apply Hlev. lia.
Qed.

Lemma wf_insert leaf t t' : wf t → insert leaf t = (Normal (), t') → wf t'.
Proof.
  intros Hwf Hins. pose proof Hwf as [Hcap Hnext Hlen Hrows].
  destruct (decide (nextIndex t < 2 ^ depth t)) as [Hk|Hk].
  - destruct (insert_normal leaf t Hwf Hk) as (h & fs & fp & Hrun & Hdom).
    assert (t' = set_leaves (leaves t ++ [leaf])
         (set_root h (set_filledPaths fp (set_filledSubtrees fs
            (set_nextIndex (nextIndex t + 1) t))))) as -> by congruence.
    split; simpl; try done; try lia.
    + rewrite length_app. simpl. lia.
    + intros i Hi. apply Hdom. by apply Hrows.
  - rewrite insert_throw in Hins by lia. done.
Qed.

Lemma wf_update k leaf path t t' :
  wf t → update k leaf path t = (Normal (), t') → wf t'.
Proof.
  intros Hwf Hupd. pose proof Hwf as [Hcap Hnext Hlen Hrows].
  destruct (decide (k < nextIndex t)) as [Hk|Hk].
  - destruct (leafExists_normal k (js_index (leaves t) k) path t Hk)
      as [[] Hex].
    + destruct (update_normal k leaf path t Hwf Hex)
        as (h & fp & Hrun & _ & Hdom & _).
      assert (t' = set_leaves (<[k := leaf]> (leaves t))
                     (set_root h (set_filledPaths fp t))) as -> by congruence.
      split; simpl; try done.
      * by rewrite length_insert.
      * intros i Hi. apply Hdom. by apply Hrows.
    + unfold update in Hupd.
      rewrite bind_gets, (bind_normal _ _ _ _ _ Hex) in Hupd. done.
  - unfold update in Hupd. rewrite bind_gets in Hupd.
    erewrite bind_throw in Hupd; [done|]. apply leafExists_throw. lia.
Qed.

#[local] Hint Resolve wf_new wf_insert wf_update : merkle.

Lemma reachable_wf t : reachable t → wf t.
Proof. induction 1; eauto with merkle. Qed.

(** *** [getPathUpdate] on well-formed trees *)

Lemma filledPath_at_row t i j row :
  filledPaths t !! i = Some row → filledPath_at t i j = js_get row j.
Proof. unfold filledPath_at, lookup2. by intros ->. Qed.

Lemma getPathUpdate_normal k t :
  wf t → k < nextIndex t →
  getPathUpdate k t
  = (Normal (map (λ i, filledPath_at t i (sibling (k / 2 ^ i)))
               (seq 0 (depth t)),
             map (λ i, (i, sibling (k / 2 ^ i))) (seq 0 (depth t))), t).
Proof.
  intros [Hcap Hnext Hlen Hrows] Hk. unfold getPathUpdate.
  rewrite bind_gets. case_decide; [unfold ge in *; lia|]. rewrite bind_gets.
  destruct (for_each_seq_inv path_level
    (λ i s t', t' = t ∧ s.1.1 = k / 2 ^ i
       ∧ s.1.2 = map (λ l, filledPath_at t l (sibling (k / 2 ^ l))) (seq 0 i)
       ∧ s.2 = map (λ l, (l, sibling (k / 2 ^ l))) (seq 0 i))
    (depth t) 0 (k, [], []) t)
    as ([[c path] idxs] & t' & Hrun & -> & Hc & Hpath & Hidxs).
  - by rewrite div_pow2_0.
  - intros i [[c path] idxs] t1 Hi (-> & Hc & Hpath & Hidxs).
    simpl in Hc, Hpath, Hidxs. subst c path idxs.
    destruct (Hrows i) as [row Hrow]; [lia|].
    eexists _, _. split; [by apply path_level_eq|]. cbn [fst snd].
    rewrite div_pow2_succ, !seq_S, !map_app. simpl.
    by rewrite (filledPath_at_row _ _ _ _ Hrow).
  - rewrite (bind_normal _ _ _ _ _ Hrun). simpl in Hpath, Hidxs.
    by rewrite Hpath, Hidxs.
Qed.

Lemma getPathUpdate_throw k t :
  nextIndex t ≤ k → getPathUpdate k t = (Throw (Error msg_no_path), t).
Proof.
  intros Hk. unfold getPathUpdate. rewrite bind_gets.
  case_decide; [done|unfold ge in *; lia].
Qed.

(** *** The statements of the specification *)

(** C3. On a tree a program can hold, [insert] throws exactly when
    [nextIndex] equals the capacity [2 ^ depth]; what it throws is
    [CapacityExceeded], and the tree it leaves is the tree it was given,
    every field unchanged. *)
Theorem insert_capacity_exceeded_atomic (t : MerkleTree) (leaf : Val) :
  reachable t →
  (∀ e t', insert leaf t = (Throw e, t') →
     nextIndex t = 2 ^ depth t ∧ classify e = Some CapacityExceeded ∧ t' = t)
  ∧ (nextIndex t = 2 ^ depth t →
     insert leaf t = (Throw (Error msg_max_capacity), t)).
Proof.
  intros Hreach. pose proof (reachable_wf t Hreach) as Hwf.
  pose proof Hwf as [Hcap Hnext Hlen Hrows]. split.
  - intros e t' Hins.
    destruct (decide (nextIndex t < 2 ^ depth t)) as [Hk|Hk].
    + destruct (insert_normal leaf t Hwf Hk) as (h & fs & fp & Hrun & _).
      congruence.
    + rewrite insert_throw in Hins by lia.
      assert (e = Error msg_max_capacity) as -> by congruence.
      repeat split; [lia|congruence].
  - intros Hfull. apply insert_throw. lia.
Qed.

(** C5. For every [depth >= 1] and every [zeroValue] the constructor
    completes normally with
    [root = hashLeftRight(zeros[depth-1], zeros[depth-1])], where
    [zeros[0] = zeroValue] and
    [zeros[i] = hashLeftRight(zeros[i-1], zeros[i-1])] for [1 <= i < depth];
    no leaf is inserted. *)
Theorem constructor_root (d : nat) (z : Val) :
  1 ≤ d →
  ∃ t, new_MerkleTree d z = (Normal (), t)
    ∧ root t = hashLeftRight (js_get (zeros t) (d - 1)) (js_get (zeros t) (d - 1))
    ∧ js_get (zeros t) 0 = z
    ∧ (∀ i, 1 ≤ i < d →
         js_get (zeros t) i
         = hashLeftRight (js_get (zeros t) (i - 1)) (js_get (zeros t) (i - 1)))
    ∧ nextIndex t = 0 ∧ leaves t = [].
Proof.
  intros Hd. destruct (construct_ok d z) as (t & Hnew & Hok & _ & Hroot).
  destruct Hok as (_ & _ & Hl & _ & Hn & Hlev).
  exists t. split; [done|]. repeat split; try done.
  - rewrite Hroot. destruct d as [|d]; [lia|]. simpl.
    by rewrite Nat.sub_0_r.
  - by destruct (Hlev 0) as (-> & _); [lia|].
  - intros i Hi.
    destruct (Hlev i) as (-> & _); [lia|].
    destruct (Hlev (i - 1)) as (-> & _); [lia|].
    destruct i as [|i]; [lia|]. simpl. by rewrite Nat.sub_0_r.
Qed.

(** C7. After construction, for every level [i] in [[1, depth)] and every
    index [j] in [[0, 2^(depth-i))], [filledPaths[i][j]] is [zeros[i]],
    the digest of the all-zero subtree of height [i]; for [i >= 2] that is
    [hashLeftRight(zeros[i-1], zeros[i-1])]. *)
Theorem constructor_seeds_filledPaths (d : nat) (z : Val) (i j : nat) :
  1 ≤ i < d → j < 2 ^ (d - i) →
  ∃ t, new_MerkleTree d z = (Normal (), t)
    ∧ is_Some (filledPaths t !! i)
    ∧ filledPath_at t i j = js_get (zeros t) i
    ∧ filledPath_at t i j = zero_at z i
    ∧ (2 ≤ i →
       filledPath_at t i j
       = hashLeftRight (js_get (zeros t) (i - 1)) (js_get (zeros t) (i - 1))).
Proof.
  intros Hi Hj. destruct (construct_ok d z) as (t & Hnew & Hok & Hseed & _).
  destruct Hok as (_ & _ & _ & _ & _ & Hlev).
  destruct (Hseed i j Hi Hj) as (row & Hrow & Hget).
  exists t. split; [done|]. rewrite (filledPath_at_row _ _ _ _ Hrow), Hget.
  split; [by rewrite Hrow|].
  destruct (Hlev i) as (-> & _); [lia|]. repeat split.
  intros _. destruct (Hlev (i - 1)) as (-> & _); [lia|].
  destruct i as [|i]; [lia|]. simpl. by rewrite Nat.sub_0_r.
Qed.

(** C8. On a tree a program can hold, [getPathUpdate(leafIndex)] throws
    [LeafNotInserted] exactly when [leafIndex >= nextIndex]; otherwise it
    returns a path of [depth] entries whose [i]-th is
    [filledPaths[i][s_i]], with [s_i] the sibling ([c+1] for even [c],
    [c-1] for odd [c]) of [c], the index [leafIndex] halved [i] times,
    together with the pairs [(i, s_i)]; the tree is unchanged. *)
Theorem getPathUpdate_siblings (t : MerkleTree) (leafIndex : nat) :
  reachable t →
  (nextIndex t ≤ leafIndex →
     ∃ e, getPathUpdate leafIndex t = (Throw e, t)
          ∧ classify e = Some LeafNotInserted)
  ∧ (leafIndex < nextIndex t →
     ∃ path pairs, getPathUpdate leafIndex t = (Normal (path, pairs), t)
       ∧ length path = depth t
       ∧ length pairs = depth t
       ∧ ∀ i, i < depth t →
           let c := curIdx_at leafIndex i in
           let s := if decide (c mod 2 = 0) then c + 1 else c - 1 in
           path !! i = Some (filledPath_at t i s)
           ∧ pairs !! i = Some (i, s)).
Proof.
  intros Hreach. pose proof (reachable_wf t Hreach) as Hwf. split.
  - intros Hk. exists (Error msg_no_path). split; [|done].
    by apply getPathUpdate_throw.
  - intros Hk. eexists _, _. split; [by apply getPathUpdate_normal|].
    rewrite !length_map, !length_seq. do 2 (split; [done|]).
    intros i Hi. cbv zeta. rewrite curIdx_at_div.
    by rewrite !list_lookup_fmap, !lookup_seq_lt by done.
Qed.

(** C9. [leafExists] and [getPathUpdate] only read: any sequence of calls
    of either, with any arguments and whatever each call's completion
    (a value, [false], or an exception), leaves the tree as it was, so
    [root], [filledPaths], [filledSubtrees], [leaves] and [nextIndex] keep
    their values. *)
Theorem reads_leave_tree_unchanged (calls : list read_call) (t : MerkleTree) :
  run_reads calls t = t
  ∧ root (run_reads calls t) = root t
  ∧ filledPaths (run_reads calls t) = filledPaths t
  ∧ filledSubtrees (run_reads calls t) = filledSubtrees t
  ∧ leaves (run_reads calls t) = leaves t
  ∧ nextIndex (run_reads calls t) = nextIndex t.
Proof.
  assert (run_reads calls t = t) as ->; [|done].
  induction calls as [|c calls IH]; [done|].
  unfold run_reads. simpl.
  assert (run_read c t = t) as ->; [|exact IH].
  destruct c; [apply readonly_leafExists|apply readonly_getPathUpdate].
Qed.

(** C10. A successful [update] on a tree a program can hold leaves
    [nextIndex], the length of [leaves], [zeros], [filledSubtrees] and
    every [leaves[j]] with [j] other than [leafIndex] unchanged, and
    changes [filledPaths] at most at two entries per level: the position
    of the path of [leafIndex] at that level and its sibling. *)
Theorem update_frame (t t' : MerkleTree) (leafIndex : nat) (newLeaf : Val)
    (path : list Val) :
  reachable t →
  update leafIndex newLeaf path t = (Normal (), t') →
  nextIndex t' = nextIndex t
  ∧ length (leaves t') = length (leaves t)
  ∧ zeros t' = zeros t
  ∧ filledSubtrees t' = filledSubtrees t
  ∧ (∀ j, j ≠ leafIndex → leaves t' !! j = leaves t !! j)
  ∧ (∀ i j, (i < depth t → j ≠ leafIndex / 2 ^ i
                           ∧ j ≠ sibling (leafIndex / 2 ^ i)) →
       entry (filledPaths t') i j = entry (filledPaths t) i j)
  ∧ depth t' = depth t ∧ zeroValue t' = zeroValue t
  ∧ leafNumber t' = leafNumber t.
Proof.
  intros Hreach Hupd. pose proof (reachable_wf t Hreach) as Hwf.
  destruct (decide (leafIndex < nextIndex t)) as [Hk|Hk].
  - destruct (leafExists_normal leafIndex (js_index (leaves t) leafIndex)
                path t Hk) as [[] Hex].
    + destruct (update_normal leafIndex newLeaf path t Hwf Hex)
        as (h & fp & Hrun & _ & _ & Hent).
      assert (t' = set_leaves (<[leafIndex := newLeaf]> (leaves t))
                     (set_root h (set_filledPaths fp t))) as -> by congruence.
      simpl. repeat split; try done.
      * by rewrite length_insert.
      * intros j Hj. by rewrite list_lookup_insert_ne.
    + unfold update in Hupd.
      rewrite bind_gets, (bind_normal _ _ _ _ _ Hex) in Hupd. done.
  - unfold update in Hupd. rewrite bind_gets in Hupd.
    erewrite bind_throw in Hupd; [done|]. apply leafExists_throw. lia.
Qed.

(** *** The hash tree over a leaf assignment *)

Lemma pow2_pos i : 0 < 2 ^ i.
Proof. pose proof (Nat.pow_nonzero 2 i). lia. Qed.

Lemma node_ext f g i : ∀ j,
  (∀ x, j * 2 ^ i ≤ x < (j + 1) * 2 ^ i → f x = g x) →
  node f i j = node g i j.
Proof.
  induction i as [|i IH]; intros j Hfg; simpl.
  - apply Hfg. rewrite Nat.pow_0_r. lia.
  - rewrite Nat.pow_succ_r' in Hfg. f_equal; apply IH; intros x Hx;
      apply Hfg; lia.
Qed.

Lemma node_zero f z i : ∀ j,
  (∀ x, j * 2 ^ i ≤ x < (j + 1) * 2 ^ i → f x = z) →
  node f i j = zero_at z i.
Proof.
  induction i as [|i IH]; intros j Hfz; simpl.
  - apply Hfz. rewrite Nat.pow_0_r. lia.
  - rewrite Nat.pow_succ_r' in Hfz. f_equal; apply IH; intros x Hx;
      apply Hfz; lia.
Qed.

Lemma padded_lt z ls leaf x :
  x < length ls → padded z (ls ++ [leaf]) x = padded z ls x.
Proof. intros. unfold padded. by rewrite lookup_app_l. Qed.

Lemma padded_ge z ls x : length ls ≤ x → padded z ls x = z.
Proof. intros. unfold padded. by rewrite lookup_ge_None_2. Qed.

Lemma padded_snoc z ls leaf : padded z (ls ++ [leaf]) (length ls) = leaf.
Proof. unfold padded. by rewrite list_lookup_middle. Qed.

Lemma in_block_div n i j :
  j * 2 ^ i ≤ n < (j + 1) * 2 ^ i → n / 2 ^ i = j.
Proof.
  intros Hn. symmetry. apply Nat.div_unique with (r := n - j * 2 ^ i); lia.
Qed.

Lemma block_above n i j : n / 2 ^ i < j → n < j * 2 ^ i.
Proof.
  intros Hj. pose proof (Nat.mul_succ_div_gt n (2 ^ i) (Nat.pow_nonzero 2 i
    ltac:(lia))) as Hn.
  assert (2 ^ i * S (n / 2 ^ i) ≤ 2 ^ i * j) by (apply Nat.mul_le_mono_l; lia).
  lia.
Qed.

(** Appending a leaf changes only the nodes above it. *)
Lemma node_snoc_other z ls leaf i j :
  j ≠ length ls / 2 ^ i →
  node (padded z (ls ++ [leaf])) i j = node (padded z ls) i j.
Proof.
  intros Hj. apply node_ext. intros x Hx.
  destruct (decide (x < length ls)) as [Hlt|Hge]; [by apply padded_lt|].
  assert (x ≠ length ls) by (intros ->; by apply Hj, eq_sym, in_block_div).
  rewrite !padded_ge; [done|lia|rewrite length_app; simpl; lia].
Qed.

(** Right of the last leaf every subtree is all-zero. *)
Lemma node_right_of_last z ls i j :
  0 < length ls → (length ls - 1) / 2 ^ i < j →
  node (padded z ls) i j = zero_at z i.
Proof.
  intros Hpos Hj. apply node_zero. intros x Hx. apply padded_ge.
  apply block_above in Hj. lia.
Qed.

Lemma node_empty z i j : node (padded z []) i j = zero_at z i.
Proof. apply node_zero. intros x _. by apply padded_ge; simpl; lia. Qed.

Lemma div_succ_cases n m :
  m ≠ 0 → (n + 1) / m = n / m ∨ (n + 1) / m = n / m + 1.
Proof.
  intros Hm. pose proof (Nat.div_mod_eq n m) as Hn.
  pose proof (Nat.mod_upper_bound n m Hm) as Hr.
  destruct (decide (n mod m + 1 < m)) as [Hlt|Hge].
  - left. symmetry. apply Nat.div_unique with (r := n mod m + 1); lia.
  - right. symmetry. apply Nat.div_unique with (r := 0); lia.
Qed.

Lemma pow2_split d i : i < d → 2 ^ (d - i) = 2 * 2 ^ (d - i - 1).
Proof.
  intros Hi. replace (d - i) with (S (d - i - 1)) at 1 by lia.
  apply Nat.pow_succ_r'.
Qed.

Lemma div_pow2_lt k d i : k < 2 ^ d → i ≤ d → k / 2 ^ i < 2 ^ (d - i).
Proof.
  intros Hk Hi. apply Nat.Div0.div_lt_upper_bound.
  rewrite <- Nat.pow_add_r. by replace (i + (d - i)) with d by lia.
Qed.

(** *** Trees grown by [insert] alone *)

Lemma lookup2_insert_eq fp i row j :
  lookup2 (<[i := row]> fp) i j = js_get row j.
Proof. unfold lookup2. by rewrite lookup_insert_eq. Qed.

Lemma lookup2_insert_ne fp i row l j :
  i ≠ l → lookup2 (<[i := row]> fp) l j = lookup2 fp l j.
Proof. intros. unfold lookup2. by rewrite lookup_insert_ne. Qed.

Lemma lookup2_row fp i row j :
  fp !! i = Some row → lookup2 fp i j = js_get row j.
Proof. unfold lookup2. by intros ->. Qed.

Lemma zero_at_succ z i :
  zero_at z (S i) = hashLeftRight (zero_at z i) (zero_at z i).
Proof. done. Qed.

Lemma synced_new d z t : new_MerkleTree d z = (Normal (), t) → synced t.
Proof.
  intros Hnew. pose proof (wf_new d z t Hnew) as Hwf.
  destruct (construct_ok d z) as (t' & Hnew' & Hok & Hseed & Hroot).
  assert (t' = t) as -> by congruence.
  destruct Hok as (Hd & Hz & Hl & Hc & Hn & Hlev).
  split; [done|..]; rewrite ?Hd, ?Hz, ?Hl, ?Hn.
  - intros i Hi. apply Hlev. lia.
  - intros i j Hi Hj Hlow. rewrite node_empty.
    destruct (decide (i = 0)) as [->|Hne].
    + specialize (Hlow eq_refl).
      rewrite (Nat.div_small (0 + 1) 2) in Hlow by lia. lia.
    + destruct (Hseed i j) as (row & Hrow & Hget); [lia|done|].
      by rewrite (lookup2_row _ _ _ _ Hrow).
  - intros i Hi. rewrite Nat.Div0.div_0_l, Nat.Div0.mod_0_l. done.
  - intros [Hpos|Hpos]; [|lia]. rewrite Hroot. unfold merkle_root.
    rewrite node_empty. destruct d as [|d]; [lia|]. simpl.
    by destruct (Hlev d) as (-> & _); [lia|].
Qed.

(** The sibling digest [insert] uses at level [i] is the digest of the
    sibling node in the tree with the new leaf appended. *)
Lemma insert_sibling_digest leaf t i :
  synced t → i < depth t →
  let c := nextIndex t / 2 ^ i in
  (if decide (c mod 2 = 0) then js_get (zeros t) i
   else js_get (filledSubtrees t) i)
  = node (padded (zeroValue t) (leaves t ++ [leaf])) i (sibling c).
Proof.
  intros [Hwf Hzeros Hpaths Hsubs Hroot] Hi c.
  pose proof Hwf as [Hcap Hnext Hlen Hrows].
  assert (c = nextIndex t / 2 ^ i) as Hc by done. clearbody c.
  parity c.
  unfold sibling. case_decide as Hc0.
  - rewrite Hzeros by done. symmetry. apply node_right_of_last.
    + rewrite length_app. simpl. lia.
    + rewrite length_app. simpl. rewrite Hlen.
      replace (nextIndex t + 1 - 1) with (nextIndex t) by lia.
      rewrite <- Hc. lia.
  - rewrite Hsubs by (rewrite <- ?Hc; lia).
    rewrite <- Hc. symmetry.
    apply node_snoc_other. rewrite Hlen, <- Hc. lia.
Qed.

(** At the leaf level the entries that paths can read are those below
    [nextIndex] rounded up to an even number. *)
Lemma covered_before n j :
  j < 2 * ((n + 2) / 2) → j ≠ n → j ≠ sibling n → j < 2 * ((n + 1) / 2).
Proof.
  unfold sibling.
  parity n. parity (n + 1). parity (n + 2).
  case_decide; lia.
Qed.

Lemma covered_sibling k n : k < n → sibling k < 2 * ((n + 1) / 2).
Proof.
  intros Hk. apply sibling_lt.
  parity (n + 1). lia.
Qed.

Lemma insert_synced leaf t :
  synced t → nextIndex t < 2 ^ depth t →
  ∃ t', insert leaf t = (Normal (), t') ∧ synced t'
        ∧ leaves t' = leaves t ++ [leaf] ∧ depth t' = depth t
        ∧ zeroValue t' = zeroValue t ∧ nextIndex t' = nextIndex t + 1.
Proof.
  intros Hsync Hk. pose proof Hsync as [Hwf Hzeros Hpaths Hsubs Hroot].
  pose proof Hwf as [Hcap Hnext Hlen Hrows].
  set (f' := padded (zeroValue t) (leaves t ++ [leaf])).
  set (t0 := set_nextIndex (nextIndex t + 1) t).
  destruct (for_each_seq_inv insert_level
    (λ i s t1, s.1 = nextIndex t / 2 ^ i
       ∧ s.2 = node f' i (nextIndex t / 2 ^ i)
       ∧ ∃ fs fp, t1 = set_filledPaths fp (set_filledSubtrees fs t0)
       ∧ (∀ l, is_Some (fp !! l) ↔ is_Some (filledPaths t !! l))
       ∧ (∀ l j, i ≤ l → lookup2 fp l j = lookup2 (filledPaths t) l j)
       ∧ (∀ l j, l < i → j < 2 ^ (depth t - l) →
            (l = 0 → j < 2 * ((nextIndex t + 2) / 2)) →
            lookup2 fp l j = node f' l j)
       ∧ (∀ l, i ≤ l → js_get fs l = js_get (filledSubtrees t) l)
       ∧ (∀ l, l < i → ((nextIndex t + 1) / 2 ^ l) mod 2 = 1 →
            js_get fs l = node f' l ((nextIndex t + 1) / 2 ^ l - 1)))
    (depth t) 0 (nextIndex t, leaf) t0)
    as ([c h] & t1 & Hrun & Hc & Hh & fs & fp & -> & Hdom & _ & Hnew
        & _ & Hfsnew).
  - split; [by rewrite div_pow2_0|]. split.
    { rewrite div_pow2_0. simpl. unfold f'. by rewrite <- Hlen, padded_snoc. }
    exists (filledSubtrees t), (filledPaths t).
    split; [by destruct t|]. repeat split; try done; intros; lia.
  - intros i [c h] t1 Hi
      (Hc & Hh & fs & fp & -> & Hdom & Hold & Hnew & Hfsold & Hfsnew).
    simpl in Hc, Hh. subst h. rewrite <- Hc.
    destruct (proj2 (Hdom i)) as [row Hrow]; [apply Hrows; lia|].
    pose proof (insert_sibling_digest leaf t i Hsync ltac:(lia)) as Hp.
    cbv zeta in Hp. rewrite <- Hc in Hp. fold f' in Hp.
    parity c.
    eexists _, _. split; [by apply insert_level_eq|]. cbn [fst snd].
    cbn [zeros filledSubtrees set_filledPaths set_filledSubtrees t0
         set_nextIndex].
    rewrite (Hfsold i) by lia. rewrite Hp.
    split; [by rewrite div_pow2_succ, <- Hc|].
    split; [by rewrite div_pow2_succ, <- Hc, node_combine|].
    eexists _, _. split; [reflexivity|]. split; [|split; [|split; [|split]]].
    + intros l. rewrite <- Hdom. destruct (decide (i = l)) as [->|Hne].
      * rewrite lookup_insert_eq, Hrow. by split.
      * by rewrite lookup_insert_ne.
    + intros l j Hl. rewrite lookup2_insert_ne by lia. apply Hold. lia.
    + intros l j Hl Hj Hlow. destruct (decide (i = l)) as [<-|Hne].
      * rewrite lookup2_insert_eq.
        destruct (decide (j = sibling c)) as [->|Hjs];
          [by rewrite js_get_insert_eq|].
        rewrite js_get_insert_ne by done.
        destruct (decide (j = c)) as [->|Hjc];
          [by rewrite js_get_insert_eq|].
        rewrite js_get_insert_ne by done.
        rewrite <- (lookup2_row _ _ _ _ Hrow), Hold by lia.
        unfold f'. rewrite node_snoc_other by (by rewrite Hlen, <- Hc).
        apply Hpaths; [lia|done|]. intros ->.
        specialize (Hlow eq_refl). rewrite div_pow2_0 in Hc. subst c.
        by apply covered_before.
      * rewrite lookup2_insert_ne by done. apply Hnew; [lia|done..].
    + intros l Hl. case_decide; [|by apply Hfsold; lia].
      rewrite js_get_insert_ne by lia. apply Hfsold. lia.
    + intros l Hl Hodd. destruct (decide (i = l)) as [<-|Hne].
      * destruct (div_succ_cases (nextIndex t) (2 ^ i)
                    (Nat.pow_nonzero 2 i ltac:(lia))) as [Heq|Heq];
          rewrite <- Hc in Heq; rewrite Heq in Hodd |- *.
        -- revert Hp. unfold sibling. case_decide as Hcm; [lia|].
           intros Hp. by rewrite Hfsold by lia.
        -- parity (c + 1).
           case_decide as Hcm; [|lia].
           rewrite js_get_insert_eq. f_equal. lia.
      * assert (js_get (if decide (c mod 2 = 0)
                        then <[i := node f' i c]> fs else fs) l
                = js_get fs l) as ->.
        { case_decide; [|done]. by rewrite js_get_insert_ne. }
        apply Hfsnew; [lia|done].
  - simpl in Hc, Hh. subst c h.
    unfold insert. rewrite !bind_gets.
    case_decide; [unfold gt in *; lia|]. rewrite bind_modify, bind_gets.
    fold t0. simpl depth. rewrite (bind_normal _ _ _ _ _ Hrun).
    eexists. split; [reflexivity|]. cbn [snd].
    split; [|done].
    assert (wf (set_leaves (leaves t ++ [leaf])
                  (set_root (node f' (depth t) (nextIndex t / 2 ^ depth t))
                     (set_filledPaths fp (set_filledSubtrees fs t0)))))
      as Hwf'.
    { split; simpl; try done; try lia.
      - rewrite length_app. simpl. lia.
      - intros i Hi. apply Hdom. by apply Hrows. }
    split; [done|..]; simpl.
    + done.
    + intros i j Hi Hj Hlow. apply Hnew; [done..|].
      intros ->. specialize (Hlow eq_refl).
      by replace (nextIndex t + 2) with (nextIndex t + 1 + 1) by lia.
    + intros i Hi Hodd. by apply Hfsnew.
    + intros _. rewrite Nat.div_small by done. done.
Qed.

Lemma insert_all_synced ls : ∀ t,
  synced t → nextIndex t + length ls ≤ 2 ^ depth t →
  ∃ t', insert_all ls t = (Normal (), t') ∧ synced t'
        ∧ leaves t' = leaves t ++ ls ∧ depth t' = depth t
        ∧ zeroValue t' = zeroValue t
        ∧ nextIndex t' = nextIndex t + length ls.
Proof.
  induction ls as [|leaf ls IH]; intros t Hsync Hlen; simpl.
  - exists t. by rewrite app_nil_r, Nat.add_0_r.
  - simpl in Hlen.
    destruct (insert_synced leaf t Hsync)
      as (t1 & Hins & Hsync1 & Hl1 & Hd1 & Hz1 & Hn1); [lia|].
    destruct (IH t1 Hsync1) as (t2 & Hall & Hsync2 & Hl2 & Hd2 & Hz2 & Hn2).
    { rewrite Hn1, Hd1. lia. }
    exists t2. rewrite (bind_normal _ _ _ _ _ Hins).
    split; [done|]. split; [done|].
    rewrite Hl2, Hl1, Hd2, Hd1, Hz2, Hz1, Hn2, Hn1, <- app_assoc.
    repeat split. lia.
Qed.

(** On a synced tree the path [getPathUpdate] returns for an inserted
    index authenticates the leaf stored there. *)
Lemma synced_roundtrip t k :
  synced t → k < nextIndex t →
  ∃ path pairs,
    getPathUpdate k t = (Normal (path, pairs), t)
    ∧ leafExists k (js_index (leaves t) k) path t = (Normal true, t).
Proof.
  intros [Hwf Hzeros Hpaths Hsubs Hroot] Hk.
  pose proof Hwf as [Hcap Hnext Hlen Hrows].
  eexists _, _. split; [by apply getPathUpdate_normal|].
  set (path := map _ _). set (f := padded (zeroValue t) (leaves t)).
  unfold leafExists. rewrite bind_gets.
  case_decide; [unfold ge in *; lia|]. rewrite bind_gets.
  destruct (for_each_seq_inv (verify_level path)
    (λ i s t', t' = t ∧ s.1 = k / 2 ^ i ∧ s.2 = node f i (k / 2 ^ i))
    (depth t) 0 (k, js_index (leaves t) k) t)
    as ([c h] & t' & Hrun & -> & Hc & Hh).
  - rewrite div_pow2_0. repeat split. simpl. unfold js_index, f, padded.
    destruct (lookup_lt_is_Some_2 (leaves t) k) as [v ->]; [lia|done].
  - intros i [c h] t1 Hi (-> & Hc & Hh). simpl in Hc, Hh. subst h.
    eexists _, _. split; [by apply verify_level_eq|]. cbn [fst snd].
    rewrite div_pow2_succ, <- Hc. repeat split.
    rewrite node_combine. f_equal.
    unfold js_index, path.
    rewrite list_lookup_fmap, lookup_seq_lt by lia. simpl.
    rewrite <- Hc. apply Hpaths; [lia| |].
    + rewrite (pow2_split (depth t) i) by lia. apply sibling_lt.
      rewrite <- pow2_split by lia. rewrite Hc. apply div_pow2_lt; lia.
    + intros ->. rewrite div_pow2_0 in Hc. subst c.
      by apply covered_sibling.
  - rewrite (bind_normal _ _ _ _ _ Hrun), bind_gets. simpl in Hc, Hh.
    simpl. rewrite Hroot by lia. unfold merkle_root. fold f.
    rewrite Hh, Nat.div_small by lia. by rewrite bool_decide_eq_true_2.
Qed.

(** *** Rejection on trees grown by [insert] alone *)

Lemma combine_inj c h p h' p' :
  collision_free → combine c h p = combine c h' p' → h = h'.
Proof.
  intros Hinj. unfold combine.
  case_decide; intros Heq; apply Hinj in Heq; by destruct Heq.
Qed.

(** With a collision-free hash, a synced tree rejects at an inserted
    index every leaf other than the stored one, whatever the path. *)
Lemma synced_rejects_other_leaf t k leaf path :
  collision_free → synced t → k < nextIndex t →
  leaf ≠ js_index (leaves t) k →
  leafExists k leaf path t = (Normal false, t).
Proof.
  intros Hinj [Hwf Hzeros Hpaths Hsubs Hroot] Hk Hleaf.
  pose proof Hwf as [Hcap Hnext Hlen Hrows].
  set (f := padded (zeroValue t) (leaves t)).
  unfold leafExists. rewrite bind_gets.
  case_decide; [unfold ge in *; lia|]. rewrite bind_gets.
  destruct (for_each_seq_inv (verify_level path)
    (λ i s t', t' = t ∧ s.1 = k / 2 ^ i ∧ s.2 ≠ node f i (k / 2 ^ i))
    (depth t) 0 (k, leaf) t)
    as ([c h] & t' & Hrun & -> & Hc & Hh).
  - rewrite div_pow2_0. repeat split. simpl. unfold f, padded.
    revert Hleaf. unfold js_index.
    destruct (lookup_lt_is_Some_2 (leaves t) k) as [v ->]; [lia|done].
  - intros i [c h] t1 Hi (-> & Hc & Hh). simpl in Hc, Hh.
    eexists _, _. split; [by apply verify_level_eq|]. cbn [fst snd].
    rewrite div_pow2_succ, <- Hc. repeat split.
    rewrite node_combine. intros Heq. apply Hh. rewrite <- Hc.
    by eapply combine_inj.
  - rewrite (bind_normal _ _ _ _ _ Hrun), bind_gets. simpl in Hc, Hh.
    simpl. rewrite Hroot by lia. unfold merkle_root. fold f.
    rewrite bool_decide_eq_false_2; [done|].
    intros Heq. apply Hh. rewrite <- Heq. f_equal.
    symmetry. apply Nat.div_small. lia.
Qed.

(** *** [update] on synced trees *)

Lemma combine_inj_sibling c h p h' p' :
  collision_free → combine c h p = combine c h' p' → p = p'.
Proof.
  intros Hinj. unfold combine.
  case_decide; intros Heq; apply Hinj in Heq; by destruct Heq.
Qed.

(** Replacing a leaf changes only the nodes above it. *)
Lemma node_insert_other z ls k leaf i j :
  j ≠ k / 2 ^ i →
  node (padded z (<[k := leaf]> ls)) i j = node (padded z ls) i j.
Proof.
  intros Hj. apply node_ext. intros x Hx. unfold padded.
  rewrite list_lookup_insert_ne; [done|].
  intros ->. by apply Hj, eq_sym, in_block_div.
Qed.

(** With a collision-free hash, a path that [leafExists] accepts for the
    stored leaf of a synced tree consists of the sibling digests. *)
Lemma accepted_path_is_siblings t k path :
  collision_free → synced t → k < nextIndex t →
  leafExists k (js_index (leaves t) k) path t = (Normal true, t) →
  ∀ i, i < depth t →
    js_index path i
    = node (padded (zeroValue t) (leaves t)) i (sibling (k / 2 ^ i)).
Proof.
  intros Hinj [Hwf Hzeros Hpaths Hsubs Hroot] Hk.
  pose proof Hwf as [Hcap Hnext Hlen Hrows].
  set (f := padded (zeroValue t) (leaves t)).
  unfold leafExists. rewrite bind_gets.
  case_decide; [unfold ge in *; lia|]. rewrite bind_gets.
  destruct (for_each_seq_inv (verify_level path)
    (λ i s t', t' = t ∧ s.1 = k / 2 ^ i
       ∧ ((s.2 = node f i (k / 2 ^ i)
           ∧ ∀ l, l < i → js_index path l = node f l (sibling (k / 2 ^ l)))
          ∨ s.2 ≠ node f i (k / 2 ^ i)))
    (depth t) 0 (k, js_index (leaves t) k) t)
    as ([c h] & t' & Hrun & -> & Hc & Hh).
  - rewrite div_pow2_0. repeat split. left. split; [|intros; lia].
    simpl. unfold js_index, f, padded.
    destruct (lookup_lt_is_Some_2 (leaves t) k) as [v ->]; [lia|done].
  - intros i [c h] t1 Hi (-> & Hc & Hh). simpl in Hc, Hh.
    eexists _, _. split; [by apply verify_level_eq|]. cbn [fst snd].
    rewrite div_pow2_succ, <- Hc, node_combine. repeat split.
    rewrite <- Hc in Hh. destruct Hh as [[-> Hbelow]|Hne].
    + destruct (decide (js_index path i = node f i (sibling c))) as [Hp|Hp].
      * left. split; [by rewrite Hp|]. intros l Hl.
        destruct (decide (l = i)) as [->|]; [by rewrite <- Hc|].
        apply Hbelow. lia.
      * right. intros Heq. by apply Hp, (combine_inj_sibling _ _ _ _ _ Hinj Heq).
    + right. intros Heq. by apply Hne, (combine_inj _ _ _ _ _ Hinj Heq).
  - rewrite (bind_normal _ _ _ _ _ Hrun), bind_gets. simpl in Hc, Hh.
    simpl. intros Hres i Hi.
    assert (root t = h) as Hroot'.
    { apply (bool_decide_eq_true_1 (root t = h)).
      unfold mret, M_ret in Hres. congruence. }
    destruct Hh as [[_ Hbelow]|Hne]; [by apply Hbelow|].
    exfalso. apply Hne. rewrite <- Hroot', Hroot by lia.
    unfold merkle_root. fold f. f_equal. symmetry. apply Nat.div_small. lia.
Qed.

(** With a collision-free hash, a successful [update] of a settled leaf
    keeps the tree synced. *)
Lemma update_synced t k leaf path t' :
  collision_free → synced t → settled t k →
  update k leaf path t = (Normal (), t') →
  synced t' ∧ leaves t' = <[k := leaf]> (leaves t)
  ∧ depth t' = depth t ∧ zeroValue t' = zeroValue t
  ∧ nextIndex t' = nextIndex t.
Proof.
  intros Hinj Hsync Hsettled Hupd.
  pose proof Hsync as [Hwf Hzeros Hpaths Hsubs Hroot].
  pose proof Hwf as [Hcap Hnext Hlen Hrows].
  pose proof (wf_update _ _ _ _ _ Hwf Hupd) as Hwf'.
  assert (k < nextIndex t ∧
          leafExists k (js_index (leaves t) k) path t = (Normal true, t))
    as [Hk Hex].
  { unfold update in Hupd. rewrite bind_gets in Hupd.
    destruct (decide (k < nextIndex t)) as [Hk|Hk].
    - split; [done|].
      destruct (leafExists_normal k (js_index (leaves t) k) path t Hk)
        as [[] Hex]; [done|].
      by rewrite (bind_normal _ _ _ _ _ Hex) in Hupd.
    - erewrite bind_throw in Hupd; [done|]. apply leafExists_throw. lia. }
  pose proof (accepted_path_is_siblings t k path Hinj Hsync Hk Hex) as Hpath.
  set (f' := padded (zeroValue t) (<[k := leaf]> (leaves t))).
  destruct (for_each_seq_inv (update_level path)
    (λ i s t1, s.1 = k / 2 ^ i ∧ s.2 = node f' i (k / 2 ^ i)
       ∧ ∃ fp, t1 = set_filledPaths fp t
       ∧ (∀ l, is_Some (fp !! l) ↔ is_Some (filledPaths t !! l))
       ∧ (∀ l j, i ≤ l → lookup2 fp l j = lookup2 (filledPaths t) l j)
       ∧ (∀ l j, l < i → j < 2 ^ (depth t - l) →
            (l = 0 → j < 2 * ((nextIndex t + 1) / 2)) →
            lookup2 fp l j = node f' l j))
    (depth t) 0 (k, leaf) t)
    as ([c h] & t1 & Hrun & Hc & Hh & fp & -> & Hdom & _ & Hnew).
  - split; [by rewrite div_pow2_0|]. split.
    { rewrite div_pow2_0. simpl. unfold f', padded.
      by rewrite list_lookup_insert_eq by lia. }
    exists (filledPaths t). split; [by destruct t|].
    repeat split; try done. intros; lia.
  - intros i [c h] t1 Hi (Hc & Hh & fp & -> & Hdom & Hold & Hnew).
    simpl in Hc, Hh. subst h. rewrite <- Hc.
    destruct (proj2 (Hdom i)) as [row Hrow]; [apply Hrows; lia|].
    eexists _, _. split; [by apply update_level_eq|]. cbn [fst snd].
    assert (js_index path i = node f' i (sibling c)) as Hp.
    { rewrite Hpath by lia. rewrite <- Hc. symmetry.
      apply node_insert_other. rewrite <- Hc. apply sibling_ne. }
    rewrite Hp.
    split; [by rewrite div_pow2_succ, <- Hc|].
    split; [by rewrite div_pow2_succ, <- Hc, node_combine|].
    eexists. split; [reflexivity|]. split; [|split].
    + intros l. rewrite <- Hdom. destruct (decide (i = l)) as [->|Hne].
      * rewrite lookup_insert_eq, Hrow. by split.
      * by rewrite lookup_insert_ne.
    + intros l j Hl. rewrite lookup2_insert_ne by lia. apply Hold. lia.
    + intros l j Hl Hj Hlow. destruct (decide (i = l)) as [<-|Hne].
      * rewrite lookup2_insert_eq.
        destruct (decide (j = sibling c)) as [->|Hjs];
          [by rewrite js_get_insert_eq|].
        rewrite js_get_insert_ne by done.
        destruct (decide (j = c)) as [->|Hjc];
          [by rewrite js_get_insert_eq|].
        rewrite js_get_insert_ne by done.
        rewrite <- (lookup2_row _ _ _ _ Hrow), Hold by lia.
        unfold f'. rewrite node_insert_other by (by rewrite <- Hc).
        apply Hpaths; [lia|done..].
      * rewrite lookup2_insert_ne by done. apply Hnew; [lia|done..].
  - simpl in Hc, Hh. subst c h.
    assert (t' = set_leaves (<[k := leaf]> (leaves t))
                   (set_root (node f' (depth t) (k / 2 ^ depth t))
                      (set_filledPaths fp t))) as ->.
    { unfold update in Hupd.
      rewrite bind_gets, (bind_normal _ _ _ _ _ Hex) in Hupd. simpl in Hupd.
      rewrite bind_gets, (bind_normal _ _ _ _ _ Hrun), bind_modify in Hupd.
      unfold modify, js_array_set in Hupd. simpl in Hupd.
      case_decide; [congruence|lia]. }
    split; [|done]. split; [done|..]; simpl.
    + done.
    + done.
    + intros i Hi Hodd. rewrite Hsubs by done. symmetry.
      apply node_insert_other. intros Heq. by apply (Hsettled i).
    + intros _. rewrite Nat.div_small by lia. done.
Qed.

(** On a full tree every leaf is settled. *)
Lemma full_settled t k : nextIndex t = 2 ^ depth t → settled t k.
Proof.
  intros Hfull i Hi Hodd. exfalso. rewrite Hfull in Hodd.
  replace (depth t) with (i + S (depth t - i - 1)) in Hodd at 1 by lia.
  rewrite Nat.pow_add_r, Nat.mul_comm, Nat.div_mul in Hodd
    by (apply Nat.pow_nonzero; lia).
  rewrite Nat.pow_succ_r', Nat.mul_comm, Nat.Div0.mod_mul in Hodd. done.
Qed.

(** The constructor followed by at most [2 ^ d] inserts completes
    normally in a synced tree. *)
Lemma inserts_synced d z ls :
  length ls ≤ 2 ^ d →
  ∃ t0 t, new_MerkleTree d z = (Normal (), t0)
    ∧ insert_all ls t0 = (Normal (), t) ∧ synced t
    ∧ leaves t = ls ∧ depth t = d ∧ zeroValue t = z
    ∧ nextIndex t = length ls.
Proof.
  intros Hlen.
  destruct (construct_ok d z) as (t0 & Hnew & Hok & _).
  pose proof (synced_new d z t0 Hnew) as Hsync0.
  destruct Hok as (Hd & Hz & Hl & Hc & Hn & Hlev).
  destruct (insert_all_synced ls t0 Hsync0)
    as (t & Hall & Hsync & Hl' & Hd' & Hz' & Hn'); [rewrite Hn, Hd; lia|].
  exists t0, t. do 3 (split; [done|]).
  rewrite Hl', Hl, Hd', Hd, Hz', Hz, Hn', Hn. by repeat split.
Qed.

(** After inserts alone, [root] is the Merkle root of the leaves. *)
Lemma root_after_inserts d z ls :
  length ls ≤ 2 ^ d → 0 < d ∨ 0 < length ls →
  ∃ t0 t, new_MerkleTree d z = (Normal (), t0)
    ∧ insert_all ls t0 = (Normal (), t)
    ∧ leaves t = ls ∧ root t = merkle_root d z ls.
Proof.
  intros Hlen Hpos.
  destruct (inserts_synced d z ls Hlen)
    as (t0 & t & Hnew & Hall & Hsync & Hl & Hd & Hz & Hn).
  exists t0, t. do 3 (split; [done|]).
  rewrite (synced_root t Hsync) by (rewrite Hd, Hn; done).
  by rewrite Hd, Hz, Hl.
Qed.

(** After inserts alone and with a collision-free hash, [leafExists]
    returns [false] for every leaf other than the stored one. *)
Lemma inserts_reject_other_leaf d z ls k leaf path :
  collision_free → length ls ≤ 2 ^ d → k < length ls →
  leaf ≠ js_index ls k →
  ∃ t0 t, new_MerkleTree d z = (Normal (), t0)
    ∧ insert_all ls t0 = (Normal (), t)
    ∧ leafExists k leaf path t = (Normal false, t).
Proof.
  intros Hinj Hlen Hk Hleaf.
  destruct (inserts_synced d z ls Hlen)
    as (t0 & t & Hnew & Hall & Hsync & Hl & Hd & Hz & Hn).
  exists t0, t. do 2 (split; [done|]).
  apply synced_rejects_other_leaf; [done..|lia|by rewrite Hl].
Qed.

(** C2. For every depth [d], zero value and sequence [ls] of at most
    [2 ^ d] leaves: the constructor followed by [insert] of each leaf in
    turn completes normally, and in the resulting tree, for every inserted
    index [k], [getPathUpdate(k)] returns a path for which
    [leafExists(k, leaves[k], path)] returns [true]. *)
Theorem roundtrip_after_inserts (d : nat) (z : Val) (ls : list Val)
    (k : nat) :
  length ls ≤ 2 ^ d → k < length ls →
  ∃ t0 t path pairs,
    new_MerkleTree d z = (Normal (), t0)
    ∧ insert_all ls t0 = (Normal (), t)
    ∧ leaves t = ls ∧ nextIndex t = length ls
    ∧ getPathUpdate k t = (Normal (path, pairs), t)
    ∧ leafExists k (js_index (leaves t) k) path t = (Normal true, t).
Proof.
  intros Hlen Hk.
  destruct (inserts_synced d z ls Hlen)
    as (t0 & t & Hnew & Hall & Hsync & Hl & Hd & Hz & Hn).
  destruct (synced_roundtrip t k Hsync) as (path & pairs & Hget & Hex);
    [lia|].
  by exists t0, t, path, pairs.
Qed.

(** ** Further properties *)

(** *** The walk of [leafExists] as a function *)

Lemma verify_loop_climb path range : ∀ s t,
  for_each (verify_level path) range s t
  = (Normal (foldl (climb_step path) s range), t).
Proof.
  induction range as [|i range IH]; intros [c h] t; simpl; [done|].
  by rewrite (bind_normal _ _ _ _ _ (verify_level_eq path i c h t)), IH.
Qed.

Lemma leafExists_climb k leaf path t :
  k < nextIndex t →
  leafExists k leaf path t
  = (Normal (bool_decide (root t = climb path (depth t) k leaf)), t).
Proof.
  intros Hk. unfold leafExists. rewrite bind_gets.
  case_decide; [unfold ge in *; lia|].
  by rewrite bind_gets, (bind_normal _ _ _ _ _ (verify_loop_climb _ _ _ _)).
Qed.

Lemma leafExists_unfold k leaf path t :
  leafExists k leaf path t
  = if decide (k >= nextIndex t) then (Throw (Error msg_cannot_verify), t)
    else match for_each (verify_level path) (seq 0 (depth t)) (k, leaf) t with
         | (Normal s, t') => (Normal (bool_decide (root t' = s.2)), t')
         | (Throw e, t') => (Throw e, t')
         end.
Proof. unfold leafExists. rewrite bind_gets. by case_decide. Qed.

Lemma climb_ext p p' range : ∀ s,
  (∀ i, i ∈ range → js_index p i = js_index p' i) →
  foldl (climb_step p) s range = foldl (climb_step p') s range.
Proof.
  induction range as [|i range IH]; intros s Hp; simpl; [done|].
  unfold climb_step at 2 4. rewrite (Hp i) by (by left).
  apply IH. intros j Hj. apply Hp. by right.
Qed.

Lemma climb_snoc path d k leaf :
  foldl (climb_step path) (k, leaf) (seq 0 (S d))
  = climb_step path (foldl (climb_step path) (k, leaf) (seq 0 d)) d.
Proof. by rewrite seq_S, foldl_app. Qed.

Lemma for_each_ext {L} (body body' : nat → L → M L) range : ∀ s t,
  (∀ i s t, i ∈ range → body i s t = body' i s t) →
  for_each body range s t = for_each body' range s t.
Proof.
  induction range as [|i range IH]; intros s t Hb; simpl; [done|].
  unfold mbind, M_bind. rewrite (Hb i s t) by (by left).
  destruct (body' i s t) as [[s1|e] t1]; [|done].
  apply IH. intros j s2 t2 Hj. apply Hb. by right.
Qed.

Lemma js_index_map_seq (g : nat → Val) d i :
  i < d → js_index (map g (seq 0 d)) i = g i.
Proof.
  intros Hi. unfold js_index.
  by rewrite list_lookup_fmap, lookup_seq_lt by done.
Qed.

(** *** The loops of [update] and [insert], with the path they record *)

Lemma js_index_snoc_lt (ps : list Val) p l :
  l < length ps → js_index (ps ++ [p]) l = js_index ps l.
Proof. intros. unfold js_index. by rewrite lookup_app_l. Qed.

Lemma js_index_snoc (ps : list Val) p : js_index (ps ++ [p]) (length ps) = p.
Proof. unfold js_index. by rewrite list_lookup_middle. Qed.

(** The loop of [update] ends with the digest of the walk of [leafExists]
    over the same path, and leaves each entry of the path in [filledPaths],
    at the sibling position of its level. *)
Lemma update_loop_path path k leaf d t :
  (∀ i, i < d → is_Some (filledPaths t !! i)) →
  ∃ fp,
    for_each (update_level path) (seq 0 d) (k, leaf) t
    = (Normal (foldl (climb_step path) (k, leaf) (seq 0 d)),
       set_filledPaths fp t)
    ∧ (∀ l, is_Some (fp !! l) ↔ is_Some (filledPaths t !! l))
    ∧ (∀ l, l < d → lookup2 fp l (sibling (k / 2 ^ l)) = js_index path l).
Proof.
  intros Hrows.
  destruct (for_each_seq_inv (update_level path)
    (λ i s t1, s = foldl (climb_step path) (k, leaf) (seq 0 i)
       ∧ s.1 = k / 2 ^ i
       ∧ ∃ fp, t1 = set_filledPaths fp t
       ∧ (∀ l, is_Some (fp !! l) ↔ is_Some (filledPaths t !! l))
       ∧ (∀ l, l < i → lookup2 fp l (sibling (k / 2 ^ l)) = js_index path l))
    d 0 (k, leaf) t) as (s & t' & Hrun & -> & _ & fp & -> & Hdom & Hsib).
  - split; [done|]. split; [by rewrite div_pow2_0|].
    exists (filledPaths t). split; [by destruct t|].
    split; [done|]. intros; lia.
  - intros i [c h] t1 Hi (Hs & Hc & fp & -> & Hdom & Hsib). simpl in Hc.
    destruct (proj2 (Hdom i)) as [row Hrow]; [apply Hrows; lia|].
    eexists _, _. split; [by apply update_level_eq|].
    split; [by rewrite climb_snoc, <- Hs|].
    split; [simpl; by rewrite div_pow2_succ, <- Hc|].
    eexists. split; [reflexivity|]. split.
    + intros l. rewrite <- Hdom. destruct (decide (i = l)) as [->|Hne].
      * rewrite lookup_insert_eq, Hrow. by split.
      * by rewrite lookup_insert_ne.
    + intros l Hl. destruct (decide (i = l)) as [<-|Hne].
      * by rewrite lookup2_insert_eq, <- Hc, js_get_insert_eq.
      * rewrite lookup2_insert_ne by done. apply Hsib. lia.
  - by exists fp.
Qed.

(** The loop of [insert] ends with the digest of the walk of [leafExists]
    over the sibling digests it chose, which it leaves in [filledPaths];
    it writes [filledPaths] only on the path of the new leaf and at its
    siblings, and [filledSubtrees] only where the path passes on the
    left. *)
Lemma insert_loop_path n leaf d t :
  (∀ i, i < d → is_Some (filledPaths t !! i)) →
  ∃ ps fs fp,
    length ps = d
    ∧ for_each insert_level (seq 0 d) (n, leaf) t
      = (Normal (foldl (climb_step ps) (n, leaf) (seq 0 d)),
         set_filledPaths fp (set_filledSubtrees fs t))
    ∧ (∀ l, is_Some (fp !! l) ↔ is_Some (filledPaths t !! l))
    ∧ (∀ l, l < d → lookup2 fp l (sibling (n / 2 ^ l)) = js_index ps l)
    ∧ (∀ l j, (l < d → j ≠ n / 2 ^ l ∧ j ≠ sibling (n / 2 ^ l)) →
         entry fp l j = entry (filledPaths t) l j)
    ∧ (∀ l, (l < d → (n / 2 ^ l) mod 2 ≠ 0) →
         fs !! l = filledSubtrees t !! l).
Proof.
  intros Hrows.
  destruct (for_each_seq_inv insert_level
    (λ i s t1, ∃ ps fs fp, length ps = i
       ∧ s = foldl (climb_step ps) (n, leaf) (seq 0 i)
       ∧ s.1 = n / 2 ^ i
       ∧ t1 = set_filledPaths fp (set_filledSubtrees fs t)
       ∧ (∀ l, is_Some (fp !! l) ↔ is_Some (filledPaths t !! l))
       ∧ (∀ l, l < i → lookup2 fp l (sibling (n / 2 ^ l)) = js_index ps l)
       ∧ (∀ l j, (l < i → j ≠ n / 2 ^ l ∧ j ≠ sibling (n / 2 ^ l)) →
            entry fp l j = entry (filledPaths t) l j)
       ∧ (∀ l, (l < i → (n / 2 ^ l) mod 2 ≠ 0) →
            fs !! l = filledSubtrees t !! l))
    d 0 (n, leaf) t)
    as (s & t' & Hrun & ps & fs & fp & Hlen & -> & _ & -> & Hdom & Hsib
        & Hent & Hfs).
  - exists [], (filledSubtrees t), (filledPaths t).
    split; [done|]. split; [done|]. split; [by rewrite div_pow2_0|].
    split; [by destruct t|]. split; [done|].
    split; [intros; lia|]. by split.
  - intros i [c h] t1 Hi
      (ps & fs & fp & Hlen & Hs & Hc & -> & Hdom & Hsib & Hent & Hfs).
    simpl in Hc.
    destruct (proj2 (Hdom i)) as [row Hrow]; [apply Hrows; lia|].
    eexists _, _. split; [by apply insert_level_eq|].
    cbn [zeros filledSubtrees set_filledPaths set_filledSubtrees].
    set (p := if decide (c mod 2 = 0) then js_get (zeros t) i
              else js_get fs i).
    exists (ps ++ [p]), (if decide (c mod 2 = 0) then <[i := h]> fs else fs).
    eexists. split; [rewrite length_app; simpl; lia|].
    split.
    { rewrite climb_snoc.
      rewrite (climb_ext (ps ++ [p]) ps (seq 0 i)).
      - rewrite <- Hs. unfold climb_step. simpl.
        by rewrite <- Hlen, js_index_snoc.
      - intros l Hl. apply elem_of_seq in Hl.
        apply js_index_snoc_lt. lia. }
    split; [simpl; by rewrite div_pow2_succ, <- Hc|].
    split; [reflexivity|]. split; [|split; [|split]].
    + intros l. rewrite <- Hdom. destruct (decide (i = l)) as [->|Hne].
      * rewrite lookup_insert_eq, Hrow. by split.
      * by rewrite lookup_insert_ne.
    + intros l Hl. destruct (decide (i = l)) as [<-|Hne].
      * rewrite lookup2_insert_eq, <- Hc, js_get_insert_eq.
        by rewrite <- Hlen, js_index_snoc.
      * rewrite lookup2_insert_ne by done.
        rewrite js_index_snoc_lt by lia. apply Hsib. lia.
    + intros l j Hlj. destruct (decide (i = l)) as [<-|Hne].
      * destruct Hlj as [Hj1 Hj2]; [lia|]. rewrite <- Hc in Hj1, Hj2.
        rewrite entry_insert_ne_pos by done. apply Hent. lia.
      * rewrite entry_insert_ne_level by done. apply Hent.
        intros Hl. apply Hlj. lia.
    + intros l Hl. destruct (decide (i = l)) as [<-|Hne].
      * rewrite <- Hc in Hl. case_decide as Hcm; [by destruct Hl; [lia|]|].
        apply Hfs. lia.
      * assert ((if decide (c mod 2 = 0) then <[i := h]> fs else fs) !! l
                = fs !! l) as ->.
        { case_decide; [|done]. by rewrite lookup_insert_ne. }
        apply Hfs. intros Hl'. apply Hl. lia.
  - by exists ps, fs, fp.
Qed.

(** *** [insert] and [update], with what they leave behind *)

Lemma insert_result leaf t :
  wf t → nextIndex t < 2 ^ depth t →
  ∃ ps fs fp,
    insert leaf t
    = (Normal (),
       set_leaves (leaves t ++ [leaf])
         (set_root (climb ps (depth t) (nextIndex t) leaf)
            (set_filledPaths fp
               (set_filledSubtrees fs (set_nextIndex (nextIndex t + 1) t)))))
    ∧ (∀ l, is_Some (fp !! l) ↔ is_Some (filledPaths t !! l))
    ∧ (∀ l, l < depth t →
         lookup2 fp l (sibling (nextIndex t / 2 ^ l)) = js_index ps l)
    ∧ (∀ l j, (l < depth t → j ≠ nextIndex t / 2 ^ l
                             ∧ j ≠ sibling (nextIndex t / 2 ^ l)) →
         entry fp l j = entry (filledPaths t) l j)
    ∧ (∀ l, (l < depth t → (nextIndex t / 2 ^ l) mod 2 ≠ 0) →
         fs !! l = filledSubtrees t !! l).
Proof.
  intros [Hcap Hnext Hlen Hrows] Hk. unfold insert. rewrite !bind_gets.
  case_decide; [unfold gt in *; lia|]. rewrite bind_modify, bind_gets.
  destruct (insert_loop_path (nextIndex t) leaf (depth t)
              (set_nextIndex (nextIndex t + 1) t))
    as (ps & fs & fp & _ & Hrun & Hdom & Hsib & Hent & Hfs); [done|].
  simpl depth. rewrite (bind_normal _ _ _ _ _ Hrun).
  by exists ps, fs, fp.
Qed.

Lemma update_result k leaf path t :
  wf t →
  leafExists k (js_index (leaves t) k) path t = (Normal true, t) →
  ∃ fp,
    update k leaf path t
    = (Normal (),
       set_leaves (<[k := leaf]> (leaves t))
         (set_root (climb path (depth t) k leaf) (set_filledPaths fp t)))
    ∧ (∀ l, is_Some (fp !! l) ↔ is_Some (filledPaths t !! l))
    ∧ (∀ l, l < depth t →
         lookup2 fp l (sibling (k / 2 ^ l)) = js_index path l).
Proof.
  intros [Hcap Hnext Hlen Hrows] Hex.
  assert (k < nextIndex t) as Hk.
  { destruct (decide (k < nextIndex t)) as [|Hge]; [done|].
    rewrite leafExists_throw in Hex by lia. done. }
  unfold update. rewrite bind_gets, (bind_normal _ _ _ _ _ Hex). simpl.
  rewrite bind_gets.
  destruct (update_loop_path path k leaf (depth t) t Hrows)
    as (fp & Hrun & Hdom & Hsib).
  rewrite (bind_normal _ _ _ _ _ Hrun), bind_modify.
  exists fp. split; [|done]. unfold modify, js_array_set. simpl.
  case_decide; [done|lia].
Qed.

(** A successful [insert] was called below capacity, a successful [update]
    on an accepted path. *)
Lemma insert_normal_inv leaf t t' :
  wf t → insert leaf t = (Normal (), t') → nextIndex t < 2 ^ depth t.
Proof.
  intros Hwf Hins. destruct (decide (nextIndex t < 2 ^ depth t)); [done|].
  rewrite insert_throw in Hins; [done|]. rewrite (wf_capacity t Hwf). lia.
Qed.

Lemma update_normal_inv k leaf path t t' :
  update k leaf path t = (Normal (), t') →
  k < nextIndex t
  ∧ leafExists k (js_index (leaves t) k) path t = (Normal true, t).
Proof.
  intros Hupd. unfold update in Hupd. rewrite bind_gets in Hupd.
  destruct (decide (k < nextIndex t)) as [Hk|Hk].
  - split; [done|].
    destruct (leafExists_normal k (js_index (leaves t) k) path t Hk)
      as [[] Hex]; [done|].
    by rewrite (bind_normal _ _ _ _ _ Hex) in Hupd.
  - erewrite bind_throw in Hupd; [done|]. apply leafExists_throw. lia.
Qed.

(** What no method changes after construction. *)
Lemma reachable_zeros t :
  reachable t →
  ∀ i, i < Nat.max (depth t) 1 → js_get (zeros t) i = zero_at (zeroValue t) i.
Proof.
  induction 1 as [d z t Hnew|t leaf t' Hreach IH Hins
                  |t k leaf path t' Hreach IH Hupd].
  - destruct (construct_ok d z) as (t1 & Hnew' & Hok & _).
    assert (t1 = t) as -> by congruence.
    destruct Hok as (-> & -> & _ & _ & _ & Hlev). intros i Hi.
    by apply Hlev.
  - pose proof (reachable_wf t Hreach) as Hwf.
    pose proof (insert_normal_inv _ _ _ Hwf Hins) as Hk.
    destruct (insert_result leaf t Hwf Hk) as (ps & fs & fp & Hrun & _).
    rewrite Hrun in Hins. injection Hins as <-. exact IH.
  - pose proof (reachable_wf t Hreach) as Hwf.
    destruct (update_normal_inv _ _ _ _ _ Hupd) as [Hk Hex].
    destruct (update_result k leaf path t Hwf Hex) as (fp & Hrun & _).
    rewrite Hrun in Hupd. injection Hupd as <-. exact IH.
Qed.

(** *** Properties of the methods beyond the specification's statements *)

(** X1. After the constructor with a positive depth [d] and inserts alone,
    at most [2 ^ d] of them, [root] is the Merkle root of the inserted
    leaves padded with the zero value, whatever the hash. *)
Theorem inserts_root_is_merkle_root (d : nat) (z : Val) (ls : list Val) :
  1 ≤ d → length ls ≤ 2 ^ d →
  ∃ t0 t, new_MerkleTree d z = (Normal (), t0)
    ∧ insert_all ls t0 = (Normal (), t)
    ∧ leaves t = ls ∧ nextIndex t = length ls
    ∧ root t = merkle_root d z ls.
Proof.
  intros Hpos Hlen.
  destruct (inserts_synced d z ls Hlen)
    as (t0 & t & Hnew & Hall & Hsync & Hl & Hd & Hz & Hn).
  exists t0, t. do 4 (split; [done|]).
  rewrite (synced_root t Hsync) by (rewrite Hd; lia).
  by rewrite Hd, Hz, Hl.
Qed.

(** X2. After the constructor with a positive depth and inserts alone, the
    path [getPathUpdate(k)] returns for an inserted index is the
    authentication path of leaf [k]: its [i]-th entry is the digest of the
    sibling, at level [i], of the node above leaf [k] in the hash tree over
    the padded leaves. *)
Theorem inserts_path_is_sibling_digests (d : nat) (z : Val) (ls : list Val)
    (k : nat) :
  1 ≤ d → length ls ≤ 2 ^ d → k < length ls →
  ∃ t0 t pairs, new_MerkleTree d z = (Normal (), t0)
    ∧ insert_all ls t0 = (Normal (), t)
    ∧ getPathUpdate k t
      = (Normal (map (λ i, node (padded z ls) i (sibling (k / 2 ^ i)))
                   (seq 0 d), pairs), t).
Proof.
  intros _ Hlen Hk.
  destruct (inserts_synced d z ls Hlen)
    as (t0 & t & Hnew & Hall & Hsync & Hl & Hd & Hz & Hn).
  pose proof Hsync as [Hwf Hzeros Hpaths Hsubs Hroot].
  exists t0, t. eexists. do 2 (split; [done|]).
  rewrite (getPathUpdate_normal k t Hwf) by lia. rewrite Hd.
  do 3 f_equal. apply map_ext_in. intros i Hi. apply in_seq in Hi.
  unfold filledPath_at. rewrite <- Hl, <- Hz.
  apply Hpaths; [lia| |].
  - rewrite Hd, (pow2_split d i) by lia. apply sibling_lt.
    rewrite <- pow2_split by lia. apply div_pow2_lt; lia.
  - intros ->. rewrite div_pow2_0. apply covered_sibling. lia.
Qed.

(** X3. On every tree a program can hold: [leafNumber] is [2 ^ depth],
    [nextIndex] is at most that capacity and is the length of [leaves],
    [filledPaths] has a row for every level below [depth], and [zeros[i]],
    never written after construction, is the zero value hashed with itself
    [i] times. *)
Theorem reachable_invariants (t : MerkleTree) :
  reachable t →
  leafNumber t = 2 ^ depth t
  ∧ nextIndex t ≤ 2 ^ depth t
  ∧ length (leaves t) = nextIndex t
  ∧ (∀ i, i < depth t → is_Some (filledPaths t !! i))
  ∧ (∀ i, i < depth t → js_get (zeros t) i = zero_at (zeroValue t) i).
Proof.
  intros Hreach. destruct (reachable_wf t Hreach) as [Hcap Hnext Hlen Hrows].
  do 4 (split; [done|]). intros i Hi. apply reachable_zeros; [done|lia].
Qed.

(** X4. Below capacity [insert] completes normally on every tree a program
    can hold: it appends the leaf, increments [nextIndex], keeps [depth],
    [zeroValue], [leafNumber] and [zeros], writes [filledPaths] only at the
    position of the new leaf's path and at its sibling on each level, and
    writes [filledSubtrees] only on the levels where that position is
    even. *)
Theorem insert_appends_within_frame (t : MerkleTree) (leaf : Val) :
  reachable t → nextIndex t < 2 ^ depth t →
  ∃ t', insert leaf t = (Normal (), t')
    ∧ leaves t' = leaves t ++ [leaf]
    ∧ nextIndex t' = nextIndex t + 1
    ∧ depth t' = depth t ∧ zeroValue t' = zeroValue t
    ∧ leafNumber t' = leafNumber t ∧ zeros t' = zeros t
    ∧ (∀ i j, (i < depth t → j ≠ nextIndex t / 2 ^ i
                             ∧ j ≠ sibling (nextIndex t / 2 ^ i)) →
         entry (filledPaths t') i j = entry (filledPaths t) i j)
    ∧ (∀ i, (i < depth t → (nextIndex t / 2 ^ i) mod 2 ≠ 0) →
         filledSubtrees t' !! i = filledSubtrees t !! i).
Proof.
  intros Hreach Hk. pose proof (reachable_wf t Hreach) as Hwf.
  destruct (insert_result leaf t Hwf Hk)
    as (ps & fs & fp & Hrun & _ & _ & Hent & Hfs).
  eexists. split; [exact Hrun|]. by repeat split.
Qed.

(** X5. After every successful [insert] on a tree a program can hold, the
    new leaf verifies: [getPathUpdate] at its index returns a path for
    which [leafExists] returns [true]. *)
Theorem inserted_leaf_verifies (t t' : MerkleTree) (leaf : Val) :
  reachable t → insert leaf t = (Normal (), t') →
  ∃ path pairs,
    getPathUpdate (nextIndex t) t' = (Normal (path, pairs), t')
    ∧ leafExists (nextIndex t) leaf path t' = (Normal true, t').
Proof.
  intros Hreach Hins. pose proof (reachable_wf t Hreach) as Hwf.
  pose proof (wf_insert _ _ _ Hwf Hins) as Hwf'.
  pose proof (insert_normal_inv _ _ _ Hwf Hins) as Hk.
  destruct (insert_result leaf t Hwf Hk)
    as (ps & fs & fp & Hrun & _ & Hsib & _).
  rewrite Hrun in Hins. injection Hins as Ht'.
  assert (nextIndex t' = nextIndex t + 1) as Hn by (by subst t').
  assert (depth t' = depth t) as Hd by (by subst t').
  eexists _, _. split; [apply getPathUpdate_normal; [done|lia]|].
  rewrite leafExists_climb by lia.
  rewrite bool_decide_eq_true_2; [done|]. rewrite Hd.
  unfold climb. erewrite climb_ext with (p' := ps).
  - by subst t'.
  - intros i Hi. apply elem_of_seq in Hi.
    rewrite js_index_map_seq by lia. rewrite <- Hsib by lia. by subst t'.
Qed.

(** X6. After every successful [update] on a tree a program can hold,
    [root] is the digest of the walk of [leafExists] from the new leaf over
    the supplied path, [getPathUpdate] at the updated index returns the
    first [depth] entries of that path ([undefined] where the path is
    shorter), and [leafExists] returns [true] for the new leaf with it. *)
Theorem updated_leaf_verifies (t t' : MerkleTree) (k : nat) (leaf : Val)
    (path : list Val) :
  reachable t → update k leaf path t = (Normal (), t') →
  root t' = climb path (depth t) k leaf
  ∧ ∃ pairs,
      getPathUpdate k t'
      = (Normal (map (js_index path) (seq 0 (depth t)), pairs), t')
      ∧ leafExists k leaf (map (js_index path) (seq 0 (depth t))) t'
        = (Normal true, t').
Proof.
  intros Hreach Hupd. pose proof (reachable_wf t Hreach) as Hwf.
  pose proof (wf_update _ _ _ _ _ Hwf Hupd) as Hwf'.
  destruct (update_normal_inv _ _ _ _ _ Hupd) as [Hk Hex].
  destruct (update_result k leaf path t Hwf Hex) as (fp & Hrun & _ & Hsib).
  rewrite Hrun in Hupd. injection Hupd as Ht'.
  assert (nextIndex t' = nextIndex t) as Hn by (by subst t').
  assert (depth t' = depth t) as Hd by (by subst t').
  split; [by subst t'|]. eexists. split.
  - rewrite (getPathUpdate_normal k t' Hwf') by lia. rewrite Hd.
    do 3 f_equal. apply map_ext_in. intros i Hi. apply in_seq in Hi.
    rewrite <- Hsib by lia. by subst t'.
  - rewrite leafExists_climb by lia.
    rewrite bool_decide_eq_true_2; [done|]. rewrite Hd.
    unfold climb. erewrite climb_ext with (p' := path).
    + by subst t'.
    + intros i Hi. apply elem_of_seq in Hi. apply js_index_map_seq. lia.
Qed.

(** X7. A successful [update] that writes the leaf already stored leaves
    [root], [leaves] and [nextIndex] as they were. *)
Theorem update_to_stored_leaf_keeps_root (t t' : MerkleTree) (k : nat)
    (path : list Val) :
  reachable t →
  update k (js_index (leaves t) k) path t = (Normal (), t') →
  root t' = root t ∧ leaves t' = leaves t ∧ nextIndex t' = nextIndex t.
Proof.
  intros Hreach Hupd. pose proof (reachable_wf t Hreach) as Hwf.
  destruct (update_normal_inv _ _ _ _ _ Hupd) as [Hk Hex].
  destruct (update_result k (js_index (leaves t) k) path t Hwf Hex)
    as (fp & Hrun & _).
  rewrite Hrun in Hupd. injection Hupd as <-. simpl.
  rewrite leafExists_climb in Hex by done.
  assert (root t = climb path (depth t) k (js_index (leaves t) k)) as <-.
  { apply (bool_decide_eq_true_1 _). congruence. }
  split; [done|]. split; [|done]. unfold js_index.
  destruct (lookup_lt_is_Some_2 (leaves t) k) as [v Hv];
    [rewrite (wf_leaves t Hwf); lia|].
  rewrite Hv. simpl. by apply list_insert_id.
Qed.

(** X8. [leafExists] and [update] read the path at the indices below
    [depth] only: two paths that agree there give the same completion and
    the same tree, on any tree. *)
Theorem path_read_below_depth_only (t : MerkleTree) (k : nat) (leaf : Val)
    (p p' : list Val) :
  (∀ i, i < depth t → js_index p i = js_index p' i) →
  leafExists k leaf p t = leafExists k leaf p' t
  ∧ update k leaf p t = update k leaf p' t.
Proof.
  intros Hp.
  assert (∀ leaf, leafExists k leaf p t = leafExists k leaf p' t) as Hex.
  { intros leaf0. rewrite !leafExists_unfold. case_decide; [done|].
    rewrite !verify_loop_climb.
    rewrite (climb_ext p p'); [done|]. intros i Hi. apply elem_of_seq in Hi. apply Hp. lia. }
  split; [apply Hex|]. unfold update. rewrite !bind_gets.
  pose proof (Hex (js_index (leaves t) k)) as Hex0.
  pose proof (readonly_leafExists k (js_index (leaves t) k) p' t) as Hro.
  destruct (leafExists k (js_index (leaves t) k) p' t) as [[b|e] t1] eqn:Hex';
    simpl in Hro; subst t1.
  - rewrite (bind_normal _ _ _ _ _ Hex0), (bind_normal _ _ _ _ _ Hex').
    destruct b; simpl; [|done]. rewrite !bind_gets.
    assert (for_each (update_level p) (seq 0 (depth t)) (k, leaf) t
            = for_each (update_level p') (seq 0 (depth t)) (k, leaf) t)
      as Hloop.
    { apply for_each_ext. intros i [c h] t1 Hi. apply elem_of_seq in Hi.
      unfold update_level. by rewrite Hp by lia. }
    destruct (for_each (update_level p') (seq 0 (depth t)) (k, leaf) t)
      as [[s1|e] t1] eqn:Hl.
    + by rewrite (bind_normal _ _ _ _ _ Hloop), (bind_normal _ _ _ _ _ Hl).
    + by rewrite (bind_throw _ _ _ _ _ Hloop), (bind_throw _ _ _ _ _ Hl).
  - by rewrite (bind_throw _ _ _ _ _ Hex0), (bind_throw _ _ _ _ _ Hex').
Qed.

(** *** Trees whose updates were all of settled leaves *)

Lemma clean_synced t : collision_free → clean t → synced t.
Proof.
  intros Hinj. induction 1 as [d z t Hnew|t leaf t' Hclean IH Hins
                               |t k leaf path t' Hclean IH Hset Hupd].
  - by eapply synced_new.
  - pose proof (insert_normal_inv _ _ _ (synced_wf t IH) Hins) as Hk.
    destruct (insert_synced leaf t IH Hk) as (t1 & Hins1 & Hsync1 & _).
    by assert (t1 = t') as <- by congruence.
  - by destruct (update_synced t k leaf path t' Hinj IH Hset Hupd).
Qed.

(** X9. With a collision-free hash, on a tree with at least one leaf that
    was built by the constructor, inserts, and updates of leaves that were
    settled when updated (every leaf of a full tree is), [root] is the
    Merkle root of the current leaves padded with the zero value. *)
Theorem clean_root_is_merkle_root (t : MerkleTree) :
  collision_free → clean t → 0 < nextIndex t →
  root t = merkle_root (depth t) (zeroValue t) (leaves t).
Proof.
  intros Hinj Hclean Hpos.
  apply (synced_root t (clean_synced t Hinj Hclean)). by right.
Qed.


(** X11. With a collision-free hash, on such a tree a path that
    [leafExists] accepts for the stored leaf holds, at every level below
    [depth], the digest of the sibling node: the authentication path is
    unique. *)
Theorem clean_accepted_path_is_unique (t : MerkleTree) (k : nat)
    (path : list Val) :
  collision_free → clean t →
  leafExists k (js_index (leaves t) k) path t = (Normal true, t) →
  ∀ i, i < depth t →
    js_index path i
    = node (padded (zeroValue t) (leaves t)) i (sibling (k / 2 ^ i)).
Proof.
  intros Hinj Hclean Hex.
  apply accepted_path_is_siblings; [done|by apply clean_synced| |done].
  destruct (decide (k < nextIndex t)) as [|Hge]; [done|].
  rewrite leafExists_throw in Hex by lia. done.
Qed.

(** X12. With a collision-free hash, on such a tree [update] with the path
    [getPathUpdate] returns for the same index always succeeds and stores
    the new leaf; when the tree is full the result is such a tree again. *)
Theorem clean_fresh_path_update_succeeds (t : MerkleTree) (k : nat)
    (newLeaf : Val) :
  collision_free → clean t → k < nextIndex t →
  ∃ path pairs t',
    getPathUpdate k t = (Normal (path, pairs), t)
    ∧ update k newLeaf path t = (Normal (), t')
    ∧ js_index (leaves t') k = newLeaf
    ∧ (nextIndex t = 2 ^ depth t → clean t').
Proof.
  intros Hinj Hclean Hk. pose proof (clean_synced t Hinj Hclean) as Hsync.
  destruct (synced_roundtrip t k Hsync Hk) as (path & pairs & Hget & Hex).
  destruct (update_result k newLeaf path t (synced_wf t Hsync) Hex)
    as (fp & Hrun & _).
  eexists path, pairs, _. split; [done|]. split; [exact Hrun|]. split.
  - simpl. unfold js_index. rewrite list_lookup_insert_eq; [done|].
    rewrite (wf_leaves t (synced_wf t Hsync)). lia.
  - intros Hfull. eapply clean_update; [done|by apply full_settled|done].
Qed.

(** X13. For every positive depth the constructor completes normally with
    capacity [2 ^ depth], and on every level below [depth] both [zeros] and
    [filledSubtrees] hold the zero value hashed with itself that many
    times. *)
Theorem constructor_levels (d : nat) (z : Val) :
  1 ≤ d →
  ∃ t, new_MerkleTree d z = (Normal (), t)
    ∧ depth t = d ∧ zeroValue t = z ∧ leafNumber t = 2 ^ d
    ∧ ∀ i, i < d →
        js_get (zeros t) i = zero_at z i
        ∧ js_get (filledSubtrees t) i = js_get (zeros t) i.
Proof.
  intros Hd. destruct (construct_ok d z) as (t & Hnew & Hok & _).
  destruct Hok as (Hdepth & Hz & _ & Hcap & _ & Hlev).
  exists t. do 4 (split; [done|]). intros i Hi.
  destruct (Hlev i) as (Hzi & Hfi & _); [lia|]. by rewrite Hfi, Hzi.
Qed.

(** ** The methods with the conversions of [hash] *)

(** *** [hash] on defined and on undefined values *)

Lemma hashLeftRightT_defined lft rgt t :
  lft ≠ undefined → rgt ≠ undefined →
  hashLeftRightT lft rgt t = (Normal (hashLeftRight lft rgt), t).
Proof.
  intros Hl Hr. unfold hashLeftRightT, hashT.
  case_decide as Hin; [|done].
  apply elem_of_cons in Hin as [->|Hin]; [done|].
  apply elem_of_cons in Hin as [->|Hin]; [done|].
  by apply elem_of_nil in Hin.
Qed.

Lemma hashLeftRightT_undefined lft rgt t :
  lft = undefined ∨ rgt = undefined →
  hashLeftRightT lft rgt t = (Throw TypeError, t).
Proof.
  intros Hu. unfold hashLeftRightT, hashT. case_decide as Hin; [done|].
  destruct Hin. destruct Hu as [->| ->]; [by left|right; by left].
Qed.

Lemma hashLeftRightT_cases lft rgt t :
  (lft ≠ undefined ∧ rgt ≠ undefined
   ∧ hashLeftRightT lft rgt t = (Normal (hashLeftRight lft rgt), t))
  ∨ ((lft = undefined ∨ rgt = undefined)
     ∧ hashLeftRightT lft rgt t = (Throw TypeError, t)).
Proof.
  destruct (decide (lft = undefined)) as [Hl|Hl].
  { right. split; [by left|]. apply hashLeftRightT_undefined. by left. }
  destruct (decide (rgt = undefined)) as [Hr|Hr].
  { right. split; [by right|]. apply hashLeftRightT_undefined. by right. }
  left. do 2 (split; [done|]). by apply hashLeftRightT_defined.
Qed.

(** *** More on the monad *)

Lemma bind_normal_inv {A B} (m : M A) (k : A → M B) t b t' :
  (m ≫= k) t = (Normal b, t') →
  ∃ a t1, m t = (Normal a, t1) ∧ k a t1 = (Normal b, t').
Proof.
  unfold mbind, M_bind. destruct (m t) as [[a|e] t1]; [|done].
  intros Hk. by exists a, t1.
Qed.

Lemma bind_cong_l {A B} (m m' : M A) (k : A → M B) t :
  m t = m' t → (m ≫= k) t = (m' ≫= k) t.
Proof. unfold mbind, M_bind. by intros ->. Qed.

Lemma bind_ext_normal {A B} (m : M A) (k k' : A → M B) t :
  (∀ a t', m t = (Normal a, t') → k a t' = k' a t') →
  (m ≫= k) t = (m ≫= k') t.
Proof.
  unfold mbind, M_bind. destruct (m t) as [[a|e] t1]; [|done].
  intros Hk. by apply Hk.
Qed.

(** *** Where the methods with the conversions complete normally, so do
    the methods without, with the same result *)

Lemma refines_refl {A} (m : M A) : refines m m.
Proof. by intros t a t'. Qed.

Lemma refines_bind {A B} (mT m : M A) (kT k : A → M B) :
  refines mT m → (∀ a, refines (kT a) (k a)) →
  refines (mT ≫= kT) (m ≫= k).
Proof.
  intros Hm Hk t b t' Hrun.
  apply bind_normal_inv in Hrun as (a & t1 & HmT & HkT).
  rewrite (bind_normal _ _ _ _ _ (Hm _ _ _ HmT)). by apply Hk.
Qed.

Lemma refines_for_each {L} (bodyT body : nat → L → M L) range :
  (∀ i s, refines (bodyT i s) (body i s)) →
  ∀ s, refines (for_each bodyT range s) (for_each body range s).
Proof.
  intros Hb. induction range as [|i range IH]; intros s; cbn [for_each].
  - apply refines_refl.
  - apply refines_bind; [apply Hb|apply IH].
Qed.

Lemma refines_hash {B} lft rgt (k : Val → M B) :
  refines (hashLeftRightT lft rgt ≫= k) (k (hashLeftRight lft rgt)).
Proof.
  intros t b t' Hrun.
  destruct (hashLeftRightT_cases lft rgt t) as [(_ & _ & Hh)|(_ & Hh)].
  - by rewrite (bind_normal _ _ _ _ _ Hh) in Hrun.
  - by rewrite (bind_throw _ _ _ _ _ Hh) in Hrun.
Qed.

Lemma init_levelT_refines i u : refines (init_levelT i u) (init_level i u).
Proof.
  intros t a t' Hrun. unfold init_levelT in Hrun. rewrite bind_gets in Hrun.
  apply refines_hash in Hrun. unfold init_level. by rewrite bind_gets.
Qed.

Lemma seed_entryT_refines i j u : refines (seed_entryT i j u) (seed_entry i j u).
Proof.
  unfold seed_entryT, seed_entry. case_decide.
  - apply refines_bind; [apply refines_refl|]. intros z.
    apply (refines_hash z z (λ h, put_filledPath i j h)).
  - apply refines_bind; [apply refines_refl|]. intros z.
    apply (refines_hash z z (λ h, put_filledPath i j h)).
Qed.

Lemma seed_levelT_refines i u : refines (seed_levelT i u) (seed_level i u).
Proof.
  unfold seed_levelT, seed_level.
  apply refines_bind; [apply refines_refl|]. intros d.
  apply refines_for_each. intros j s. apply seed_entryT_refines.
Qed.

Lemma constructT_refines : refines constructT construct.
Proof.
  unfold constructT, construct.
  apply refines_bind; [apply refines_refl|]. intros d.
  apply refines_bind; [apply refines_for_each, init_levelT_refines|]. intros _.
  apply refines_bind; [apply refines_for_each, seed_levelT_refines|]. intros _.
  intros t a t' Hrun. rewrite bind_gets in Hrun.
  apply refines_hash in Hrun. by rewrite bind_gets.
Qed.

Lemma insert_levelT_refines i s : refines (insert_levelT i s) (insert_level i s).
Proof.
  destruct s as [c h]. unfold insert_levelT, insert_level.
  apply refines_bind; [apply refines_refl|]. intros [l r].
  apply (refines_hash l r (λ h, mret (c / 2, h))).
Qed.

Lemma insertT_refines leaf : refines (insertT leaf) (insert leaf).
Proof.
  unfold insertT, insert.
  apply refines_bind; [apply refines_refl|]. intros n.
  apply refines_bind; [apply refines_refl|]. intros cap.
  case_decide; [apply refines_refl|].
  apply refines_bind; [apply refines_refl|]. intros _.
  apply refines_bind; [apply refines_refl|]. intros d.
  apply refines_bind; [|intros s; apply refines_refl].
  apply refines_for_each, insert_levelT_refines.
Qed.

Lemma verify_levelT_refines path i s :
  refines (verify_levelT path i s) (verify_level path i s).
Proof.
  destruct s as [c h]. unfold verify_levelT, verify_level.
  case_decide; apply (refines_hash _ _ (λ h, mret (c / 2, h))).
Qed.

Lemma leafExistsT_refines k leaf path :
  refines (leafExistsT k leaf path) (leafExists k leaf path).
Proof.
  unfold leafExistsT, leafExists.
  apply refines_bind; [apply refines_refl|]. intros n.
  case_decide; [apply refines_refl|].
  apply refines_bind; [apply refines_refl|]. intros d.
  apply refines_bind; [|intros s; apply refines_refl].
  apply refines_for_each, verify_levelT_refines.
Qed.

Lemma update_levelT_refines path i s :
  refines (update_levelT path i s) (update_level path i s).
Proof.
  destruct s as [c h]. unfold update_levelT, update_level.
  apply refines_bind; [apply refines_refl|]. intros [l r].
  apply (refines_hash l r (λ h, mret (c / 2, h))).
Qed.

Lemma updateT_refines k leaf path :
  refines (updateT k leaf path) (update k leaf path).
Proof.
  unfold updateT, update.
  apply refines_bind; [apply refines_refl|]. intros old.
  apply refines_bind; [apply leafExistsT_refines|]. intros ok.
  destruct ok; simpl; [|apply refines_refl].
  apply refines_bind; [apply refines_refl|]. intros d.
  apply refines_bind; [|intros s; apply refines_refl].
  apply refines_for_each, update_levelT_refines.
Qed.

(** Every tree the methods with the conversions reach, the methods without
    reach. *)
Lemma reachableT_reachable t : reachableT t → reachable t.
Proof.
  induction 1 as [d z t Hnew|t leaf t' _ IH Hins|t k leaf path t' _ IH Hupd].
  - eapply reachable_new. by apply constructT_refines.
  - eapply reachable_insert; [exact IH|]. by apply insertT_refines.
  - eapply reachable_update; [exact IH|]. by apply updateT_refines.
Qed.

(** *** What a tree holds is defined *)

(** The constructor hashes [zeros[depth - 1]], which at depth [0] is
    [undefined]. *)
Lemma new_MerkleTreeT_depth d z t :
  new_MerkleTreeT d z = (Normal (), t) → 1 ≤ d.
Proof.
  intros Hnew. destruct d as [|d]; [|lia]. exfalso.
  unfold new_MerkleTreeT, constructT in Hnew.
  rewrite bind_gets in Hnew. simpl in Hnew.
  rewrite !bind_ret, bind_gets in Hnew. simpl in Hnew.
  by rewrite (bind_throw _ _ _ _ _
                (hashLeftRightT_undefined undefined undefined _ (or_introl eq_refl)))
    in Hnew.
Qed.

(** A level of [insert] or [update] hashes the digest it was given. *)
Lemma insert_levelT_defined i c h t s' t' :
  insert_levelT i (c, h) t = (Normal s', t') → h ≠ undefined.
Proof.
  intros Hrun Hh. unfold insert_levelT in Hrun.
  apply bind_normal_inv in Hrun as ([l r] & t1 & Hb & Hrun).
  assert (l = h ∨ r = h) as Hlr.
  { case_decide.
    - do 4 (apply bind_normal_inv in Hb as (? & ? & _ & Hb)).
      injection Hb as <- <- <-. by left.
    - do 3 (apply bind_normal_inv in Hb as (? & ? & _ & Hb)).
      injection Hb as <- <- <-. by right. }
  rewrite (bind_throw _ _ t1 TypeError t1) in Hrun; [done|].
  apply hashLeftRightT_undefined. destruct Hlr; [left|right]; congruence.
Qed.

Lemma update_levelT_defined i path c h t s' t' :
  update_levelT path i (c, h) t = (Normal s', t') → h ≠ undefined.
Proof.
  intros Hrun Hh. unfold update_levelT in Hrun.
  apply bind_normal_inv in Hrun as ([l r] & t1 & Hb & Hrun).
  assert (l = h ∨ r = h) as Hlr.
  { case_decide.
    - do 2 (apply bind_normal_inv in Hb as (? & ? & _ & Hb)).
      injection Hb as <- <- <-. by left.
    - do 2 (apply bind_normal_inv in Hb as (? & ? & _ & Hb)).
      injection Hb as <- <- <-. by right. }
  rewrite (bind_throw _ _ t1 TypeError t1) in Hrun; [done|].
  apply hashLeftRightT_undefined. destruct Hlr; [left|right]; congruence.
Qed.

Lemma for_each_first_normal {L} (body : nat → L → M L) i range s t s' t' :
  for_each body (i :: range) s t = (Normal s', t') →
  ∃ s1 t1, body i s t = (Normal s1, t1).
Proof.
  cbn [for_each]. intros Hrun.
  apply bind_normal_inv in Hrun as (s1 & t1 & Hb & _). by exists s1, t1.
Qed.

(** On a tree of positive depth a successful [insert] or [update] hashes
    the leaf it is given. *)
Lemma insertT_leaf_defined leaf t t' :
  1 ≤ depth t → insertT leaf t = (Normal (), t') → leaf ≠ undefined.
Proof.
  intros Hd Hins. unfold insertT in Hins. rewrite !bind_gets in Hins.
  case_decide; [done|]. rewrite bind_modify, bind_gets in Hins.
  apply bind_normal_inv in Hins as (s & t1 & Hloop & _).
  simpl depth in Hloop. destruct (depth t) as [|d]; [lia|].
  apply for_each_first_normal in Hloop as (s1 & t2 & Hb).
  by apply insert_levelT_defined in Hb.
Qed.

Lemma updateT_leaf_defined k leaf path t t' :
  1 ≤ depth t → updateT k leaf path t = (Normal (), t') → leaf ≠ undefined.
Proof.
  intros Hd Hupd. unfold updateT in Hupd. rewrite bind_gets in Hupd.
  apply bind_normal_inv in Hupd as (ok & t1 & Hex & Hupd).
  assert (t1 = t) as ->.
  { apply leafExistsT_refines in Hex.
    pose proof (readonly_leafExists k (js_index (leaves t) k) path t) as Hro.
    by rewrite Hex in Hro. }
  destruct ok; [|done]. simpl in Hupd. rewrite bind_gets in Hupd.
  apply bind_normal_inv in Hupd as (s & t1 & Hloop & _).
  destruct (depth t) as [|d]; [lia|].
  apply for_each_first_normal in Hloop as (s1 & t2 & Hb).
  by apply update_levelT_defined in Hb.
Qed.

(** Every tree a program can hold has a positive depth, and its leaves
    are defined. *)
Lemma reachableT_defined t :
  reachableT t →
  1 ≤ depth t ∧ ∀ j, j < nextIndex t → js_index (leaves t) j ≠ undefined.
Proof.
  induction 1 as [d z t Hnew|t leaf t' Hreach [IHd IHl] Hins
                  |t k leaf path t' Hreach [IHd IHl] Hupd].
  - pose proof (new_MerkleTreeT_depth d z t Hnew) as Hd.
    apply constructT_refines in Hnew.
    destruct (construct_ok d z) as (t1 & Hnew' & Hok & _).
    assert (t1 = t) as -> by (unfold new_MerkleTree in Hnew'; congruence).
    destruct Hok as (-> & _ & _ & _ & -> & _). split; [done|]. intros; lia.
  - pose proof (reachable_wf t (reachableT_reachable t Hreach)) as Hwf.
    pose proof (insertT_leaf_defined leaf t t' IHd Hins) as Hleaf.
    apply insertT_refines in Hins.
    pose proof (insert_normal_inv _ _ _ Hwf Hins) as Hk.
    destruct (insert_result leaf t Hwf Hk) as (ps & fs & fp & Hrun & _).
    rewrite Hrun in Hins. injection Hins as <-. simpl. split; [done|].
    intros j Hj. rewrite <- (wf_leaves t Hwf) in Hj.
    destruct (decide (j = length (leaves t))) as [->|Hne].
    + by rewrite js_index_snoc.
    + rewrite js_index_snoc_lt by lia. apply IHl.
      rewrite <- (wf_leaves t Hwf). lia.
  - pose proof (reachable_wf t (reachableT_reachable t Hreach)) as Hwf.
    pose proof (updateT_leaf_defined k leaf path t t' IHd Hupd) as Hleaf.
    apply updateT_refines in Hupd.
    destruct (update_normal_inv _ _ _ _ _ Hupd) as [Hk Hex].
    destruct (update_result k leaf path t Hwf Hex) as (fp & Hrun & _).
    rewrite Hrun in Hupd. injection Hupd as <-. simpl. split; [done|].
    intros j Hj. unfold js_index. destruct (decide (k = j)) as [->|Hne].
    + rewrite list_lookup_insert_eq; [done|].
      rewrite (wf_leaves t Hwf). lia.
    + rewrite list_lookup_insert_ne by done. by apply IHl.
Qed.

(** *** [leafExists] and [update] on defined and on undefined path
    entries *)

Lemma verify_levelT_agree path i c h t :
  h ≠ undefined → js_index path i ≠ undefined →
  verify_levelT path i (c, h) t = verify_level path i (c, h) t.
Proof.
  intros Hh Hp. unfold verify_levelT, verify_level. case_decide.
  - by rewrite (bind_normal _ _ _ _ _ (hashLeftRightT_defined _ _ t Hh Hp)).
  - by rewrite (bind_normal _ _ _ _ _ (hashLeftRightT_defined _ _ t Hp Hh)).
Qed.

Lemma verify_levelT_undefined path i c h t :
  js_index path i = undefined →
  verify_levelT path i (c, h) t = (Throw TypeError, t).
Proof.
  intros Hp. unfold verify_levelT.
  case_decide; cbv beta iota;
    (erewrite bind_throw; [done|]); apply hashLeftRightT_undefined;
    [by right|by left].
Qed.

Lemma verify_levelT_cases path i s t :
  (∃ s', verify_levelT path i s t = (Normal s', t))
  ∨ verify_levelT path i s t = (Throw TypeError, t).
Proof.
  destruct s as [c h]. unfold verify_levelT.
  case_decide; cbv beta iota.
  - destruct (hashLeftRightT_cases h (js_index path i) t)
      as [(_ & _ & Hh)|(_ & Hh)];
      [left; eexists; by rewrite (bind_normal _ _ _ _ _ Hh)
      |right; by rewrite (bind_throw _ _ _ _ _ Hh)].
  - destruct (hashLeftRightT_cases (js_index path i) h t)
      as [(_ & _ & Hh)|(_ & Hh)];
      [left; eexists; by rewrite (bind_normal _ _ _ _ _ Hh)
      |right; by rewrite (bind_throw _ _ _ _ _ Hh)].
Qed.

(** The walk of [leafExists] over defined entries is the walk without the
    conversions. *)
Lemma verify_loopT_agree path range :
  digest_hash → ∀ s t,
  s.2 ≠ undefined → (∀ i, i ∈ range → js_index path i ≠ undefined) →
  for_each (verify_levelT path) range s t
  = for_each (verify_level path) range s t.
Proof.
  intros Hout. induction range as [|i range IH]; intros [c h] t Hh Hp;
    cbn [for_each]; [done|].
  simpl in Hh. unfold mbind, M_bind.
  rewrite (verify_levelT_agree path i c h t Hh) by (apply Hp; by left).
  rewrite verify_level_eq. apply IH.
  - simpl. unfold combine. case_decide; apply Hout.
  - intros j Hj. apply Hp. by right.
Qed.

(** The walk throws at an undefined entry, if not before. *)
Lemma verify_loopT_undefined path range : ∀ s t,
  (∃ i, i ∈ range ∧ js_index path i = undefined) →
  for_each (verify_levelT path) range s t = (Throw TypeError, t).
Proof.
  induction range as [|i range IH]; intros s t (j & Hj & Hp); cbn [for_each].
  - by apply elem_of_nil in Hj.
  - destruct (verify_levelT_cases path i s t) as [[s1 Hs1]|Hthrow].
    + rewrite (bind_normal _ _ _ _ _ Hs1).
      apply elem_of_cons in Hj as [->|Hj].
      * destruct s as [c h]. by rewrite verify_levelT_undefined in Hs1.
      * apply IH. by exists j.
    + by rewrite (bind_throw _ _ _ _ _ Hthrow).
Qed.

Lemma leafExistsT_agree k leaf path t :
  digest_hash → leaf ≠ undefined →
  (∀ i, i < depth t → js_index path i ≠ undefined) →
  leafExistsT k leaf path t = leafExists k leaf path t.
Proof.
  intros Hout Hleaf Hp. unfold leafExistsT, leafExists. rewrite !bind_gets.
  case_decide; [done|]. rewrite !bind_gets. unfold mbind, M_bind.
  rewrite verify_loopT_agree; [done..|].
  intros i Hi. apply elem_of_seq in Hi. apply Hp. lia.
Qed.

Lemma leafExistsT_undefined k leaf path t :
  k < nextIndex t → (∃ i, i < depth t ∧ js_index path i = undefined) →
  leafExistsT k leaf path t = (Throw TypeError, t).
Proof.
  intros Hk (i & Hi & Hp). unfold leafExistsT. rewrite bind_gets.
  case_decide; [unfold ge in *; lia|]. rewrite bind_gets.
  apply bind_throw, verify_loopT_undefined. exists i. split; [|done].
  apply elem_of_seq. lia.
Qed.

Lemma leafExistsT_throw k leaf path t :
  nextIndex t ≤ k →
  leafExistsT k leaf path t = (Throw (Error msg_cannot_verify), t).
Proof.
  intros Hk. unfold leafExistsT. rewrite bind_gets.
  case_decide; [done|unfold ge in *; lia].
Qed.

Lemma update_levelT_agree path i c h t :
  h ≠ undefined → js_index path i ≠ undefined →
  update_levelT path i (c, h) t = update_level path i (c, h) t.
Proof.
  intros Hh Hp. unfold update_levelT, update_level.
  apply bind_ext_normal. intros [l r] t1 Hb.
  assert (l ≠ undefined ∧ r ≠ undefined) as [Hl Hr].
  { case_decide.
    - do 2 (apply bind_normal_inv in Hb as (? & ? & _ & Hb)).
      by injection Hb as <- <- <-.
    - do 2 (apply bind_normal_inv in Hb as (? & ? & _ & Hb)).
      by injection Hb as <- <- <-. }
  by rewrite (bind_normal _ _ _ _ _ (hashLeftRightT_defined _ _ t1 Hl Hr)).
Qed.

Lemma update_level_digest path i c h t s' t' :
  update_level path i (c, h) t = (Normal s', t') →
  ∃ l r, s'.2 = hashLeftRight l r.
Proof.
  intros Hrun. unfold update_level in Hrun.
  apply bind_normal_inv in Hrun as ([l r] & t1 & _ & Hrun).
  injection Hrun as <- <-. by exists l, r.
Qed.

(** The loop of [update] over defined entries is the loop without the
    conversions. *)
Lemma update_loopT_agree path range :
  digest_hash → ∀ s t,
  s.2 ≠ undefined → (∀ i, i ∈ range → js_index path i ≠ undefined) →
  for_each (update_levelT path) range s t
  = for_each (update_level path) range s t.
Proof.
  intros Hout. induction range as [|i range IH]; intros [c h] t Hh Hp;
    cbn [for_each]; [done|].
  simpl in Hh. unfold mbind, M_bind.
  rewrite (update_levelT_agree path i c h t Hh) by (apply Hp; by left).
  destruct (update_level path i (c, h) t) as [[s1|e] t1] eqn:Hb; [|done].
  apply IH.
  - destruct (update_level_digest _ _ _ _ _ _ _ Hb) as (l & r & ->).
    apply Hout.
  - intros j Hj. apply Hp. by right.
Qed.

Lemma updateT_agree k leaf path t :
  digest_hash → js_index (leaves t) k ≠ undefined → leaf ≠ undefined →
  (∀ i, i < depth t → js_index path i ≠ undefined) →
  updateT k leaf path t = update k leaf path t.
Proof.
  intros Hout Hold Hleaf Hp. unfold updateT, update. rewrite !bind_gets.
  rewrite (bind_cong_l _ _ _ _ (leafExistsT_agree k _ path t Hout Hold Hp)).
  apply bind_ext_normal. intros ok t1 Hex.
  pose proof (readonly_leafExists k (js_index (leaves t) k) path t) as Hro.
  rewrite Hex in Hro. simpl in Hro. subst t1.
  destruct ok; simpl; [|done]. rewrite !bind_gets.
  apply bind_cong_l, update_loopT_agree; [done..|].
  intros i Hi. apply elem_of_seq in Hi. apply Hp. lia.
Qed.

(** C4. On a tree a program can hold, with a hash that returns digests and
    a defined [newLeaf], and for [leafIndex < nextIndex]: when [path] has a
    defined entry at every level below [depth], [update] completes normally
    exactly when [leafExists] accepts the path for the stored
    [leaves[leafIndex]], and then the stored leaf is the new one; when
    [leafExists] rejects the path it throws [ProofMismatch] and leaves the
    tree as it was.  When [path] has no defined entry at some level below
    [depth], as every path shorter than [depth] has not, [leafExists] and
    with it [update] throw the [TypeError] of [hash], the tree again as it
    was.  For [leafIndex >= nextIndex], [update] throws [LeafNotInserted],
    the tree unchanged. *)
Theorem updateT_gated_by_leafExistsT (t : MerkleTree) (leafIndex : nat)
    (newLeaf : Val) (path : list Val) :
  digest_hash → reachableT t → newLeaf ≠ undefined →
  (leafIndex < nextIndex t →
   (∀ i, i < depth t → js_index path i ≠ undefined) →
     ∃ b, leafExistsT leafIndex (js_index (leaves t) leafIndex) path t
          = (Normal b, t)
       ∧ (b = true → ∃ t', updateT leafIndex newLeaf path t = (Normal (), t')
                          ∧ js_index (leaves t') leafIndex = newLeaf)
       ∧ (b = false → ∃ e, updateT leafIndex newLeaf path t = (Throw e, t)
                          ∧ classify e = Some ProofMismatch))
  ∧ (leafIndex < nextIndex t →
     (∃ i, i < depth t ∧ js_index path i = undefined) →
       leafExistsT leafIndex (js_index (leaves t) leafIndex) path t
       = (Throw TypeError, t)
       ∧ updateT leafIndex newLeaf path t = (Throw TypeError, t))
  ∧ (nextIndex t ≤ leafIndex →
     ∃ e, updateT leafIndex newLeaf path t = (Throw e, t)
          ∧ classify e = Some LeafNotInserted).
Proof.
  intros Hout Hreach Hleaf.
  pose proof (reachable_wf t (reachableT_reachable t Hreach)) as Hwf.
  destruct (reachableT_defined t Hreach) as [Hd Hdef].
  split; [|split].
  - intros Hk Hp.
    rewrite (leafExistsT_agree leafIndex _ path t Hout (Hdef _ Hk) Hp).
    rewrite (updateT_agree leafIndex newLeaf path t Hout (Hdef _ Hk) Hleaf Hp).
    destruct (leafExists_normal leafIndex (js_index (leaves t) leafIndex)
                path t Hk) as [b Hex].
    exists b. split; [done|]. split; intros ->.
    + destruct (update_normal leafIndex newLeaf path t Hwf Hex)
        as (h & fp & Hrun & _).
      eexists. split; [exact Hrun|]. simpl. unfold js_index.
      rewrite list_lookup_insert_eq; [done|].
      rewrite (wf_leaves t Hwf). lia.
    + exists (Error msg_mismatch). split; [|done]. unfold update.
      by rewrite bind_gets, (bind_normal _ _ _ _ _ Hex).
  - intros Hk Hp.
    pose proof (leafExistsT_undefined leafIndex
                  (js_index (leaves t) leafIndex) path t Hk Hp) as Hex.
    split; [done|]. unfold updateT.
    by rewrite bind_gets, (bind_throw _ _ _ _ _ Hex).
  - intros Hk. exists (Error msg_cannot_verify). split; [|done].
    unfold updateT. rewrite bind_gets.
    erewrite bind_throw; [done|]. by apply leafExistsT_throw.
Qed.

End merkle.

(** ** Concrete runs with the ideal hash *)

(** Depth 1: [insert(10)], then [update(0, 11, [0])] with the path
    [getPathUpdate(0)] returns, then [insert(12)]. *)
Definition tree0 : MerkleTree :=
  (new_MerkleTree TUndefined term_hash 1 (TNum 0)).2.
Definition tree1 : MerkleTree :=
  (insert TUndefined term_hash (TNum 10) tree0).2.
Definition tree1u : MerkleTree :=
  (update TUndefined term_hash 0 (TNum 11) [TNum 0] tree1).2.
Definition tree2 : MerkleTree :=
  (insert TUndefined term_hash (TNum 12) tree1u).2.

(** The leaves the driver inserts (lines 214-218). *)
Definition driver_leaves : list term :=
  [TNum 2047; TNum 1; TNum 2; TNum 3; TNum 4; TNum 5; TNum 6; TNum 7].

(** The driver of lines 214-232, run on the tree of line 212; its value is
    [isValid].  The number literal of line 229 is the double
    [102934018234802847744]. *)
Definition driver : M bool :=
  insert TUndefined term_hash (TNum 2047);;
  for_each (λ i _, insert TUndefined term_hash (TNum (N.of_nat i)))
    (seq 1 7) ();;
  for_each (λ i _, r ← getPathUpdate TUndefined 1;
                   update TUndefined term_hash 1 (TNum (N.of_nat i)) r.1)
    (seq 2 6) ();;
  r ← getPathUpdate TUndefined 3;
  leafExists TUndefined term_hash 3 (TNum 102934018234802847744) r.1.

(** The driver completes normally and prints [Data exists: false], as the
    comment of line 235 says. *)
Lemma driver_isValid_false :
  (driver (new_MerkleTree TUndefined term_hash 3 (TNum 0)).2).1 = Normal false.
Proof. by vm_compute. Qed.

Lemma term_hash_collision_free : collision_free term_hash.
Proof. intros a b a' b' Heq. by injection Heq. Qed.

Lemma tree0_new :
  new_MerkleTree TUndefined term_hash 1 (TNum 0) = (Normal (), tree0).
Proof. by vm_compute. Qed.

Lemma tree1_insert : insert TUndefined term_hash (TNum 10) tree0 = (Normal (), tree1).
Proof. by vm_compute. Qed.

Lemma tree1_path :
  getPathUpdate TUndefined 0 tree1 = (Normal ([TNum 0], [(0, 1)]), tree1).
Proof. by vm_compute. Qed.

Lemma tree1u_update :
  update TUndefined term_hash 0 (TNum 11) [TNum 0] tree1 = (Normal (), tree1u).
Proof. by vm_compute. Qed.

Lemma tree2_insert :
  insert TUndefined term_hash (TNum 12) tree1u = (Normal (), tree2).
Proof. by vm_compute. Qed.

Lemma tree0_reachable : reachable TUndefined term_hash tree0.
Proof. eapply reachable_new, tree0_new. Qed.

Lemma tree1_reachable : reachable TUndefined term_hash tree1.
Proof. eapply reachable_insert; [apply tree0_reachable|apply tree1_insert]. Qed.

Lemma tree1u_reachable : reachable TUndefined term_hash tree1u.
Proof. eapply reachable_update; [apply tree1_reachable|apply tree1u_update]. Qed.

Lemma tree2_reachable : reachable TUndefined term_hash tree2.
Proof. eapply reachable_insert; [apply tree1u_reachable|apply tree2_insert]. Qed.

(** C1, at the run above. Every call completes normally and the tree ends
    with [leaves = [11, 12]], whose Merkle root is [hash(11, 12)], but with
    [root = hash(10, 12)]: [update] left [filledSubtrees[0]] at the leaf it
    replaced, and the [insert] that followed took it as the left sibling. *)
Theorem root_stale_after_update_then_insert :
  reachable TUndefined term_hash tree2
  ∧ leaves tree2 = [TNum 11; TNum 12]
  ∧ nextIndex tree2 = 2
  ∧ root tree2 = TMimc (TNum 10) (TNum 12)
  ∧ merkle_root term_hash (depth tree2) (zeroValue tree2) (leaves tree2)
    = TMimc (TNum 11) (TNum 12)
  ∧ js_get TUndefined (filledSubtrees tree1u) 0 = TNum 10
  ∧ root tree2
    ≠ merkle_root term_hash (depth tree2) (zeroValue tree2) (leaves tree2).
Proof.
  split; [apply tree2_reachable|]. repeat split; by vm_compute.
Qed.

(** C6, at the same run. The hash has no collisions, index [0] is inserted
    and stores [11], yet [leafExists(0, 10, [12])] returns [true] for the
    leaf [10] that [update] had replaced. *)
Theorem replaced_leaf_still_verifies :
  collision_free term_hash
  ∧ reachable TUndefined term_hash tree2
  ∧ 0 < nextIndex tree2
  ∧ js_index TUndefined (leaves tree2) 0 = TNum 11
  ∧ TNum 10 ≠ js_index TUndefined (leaves tree2) 0
  ∧ getPathUpdate TUndefined 0 tree2 = (Normal ([TNum 12], [(0, 1)]), tree2)
  ∧ leafExists TUndefined term_hash 0 (TNum 10) [TNum 12] tree2
    = (Normal true, tree2)
  ∧ leafExists TUndefined term_hash 0 (TNum 11) [TNum 12] tree2
    = (Normal false, tree2).
Proof.
  split; [apply term_hash_collision_free|].
  split; [apply tree2_reachable|].
  split; [vm_compute; lia|]. repeat split; by vm_compute.
Qed.

(** *** The statements at concrete inputs *)

Lemma roundtrip_after_inserts_driver :
  length driver_leaves ≤ 2 ^ 3 ∧ 3 < length driver_leaves
  ∧ ∃ t0 t path pairs,
      new_MerkleTree TUndefined term_hash 3 (TNum 0) = (Normal (), t0)
      ∧ insert_all TUndefined term_hash driver_leaves t0 = (Normal (), t)
      ∧ leaves t = driver_leaves ∧ nextIndex t = length driver_leaves
      ∧ getPathUpdate TUndefined 3 t = (Normal (path, pairs), t)
      ∧ leafExists TUndefined term_hash 3 (js_index TUndefined (leaves t) 3)
          path t = (Normal true, t).
Proof.
  assert (length driver_leaves ≤ 2 ^ 3) as Hlen by (simpl; lia).
  assert (3 < length driver_leaves) as Hk by (simpl; lia).
  split; [exact Hlen|]. split; [exact Hk|].
  exact (roundtrip_after_inserts TUndefined term_hash 3 (TNum 0)
           driver_leaves 3 Hlen Hk).
Defined.

Lemma insert_capacity_exceeded_atomic_full :
  reachable TUndefined term_hash tree2
  ∧ (∀ e t', insert TUndefined term_hash (TNum 13) tree2 = (Throw e, t') →
       nextIndex tree2 = 2 ^ depth tree2
       ∧ classify e = Some CapacityExceeded ∧ t' = tree2)
  ∧ (nextIndex tree2 = 2 ^ depth tree2 →
     insert TUndefined term_hash (TNum 13) tree2
     = (Throw (Error msg_max_capacity), tree2)).
Proof.
  split; [apply tree2_reachable|].
  exact (insert_capacity_exceeded_atomic TUndefined term_hash tree2 (TNum 13)
           tree2_reachable).
Defined.

Lemma constructor_root_depth3 :
  1 ≤ 3
  ∧ ∃ t, new_MerkleTree TUndefined term_hash 3 (TNum 0) = (Normal (), t)
      ∧ root t = hashLeftRight term_hash (js_get TUndefined (zeros t) (3 - 1))
                   (js_get TUndefined (zeros t) (3 - 1))
      ∧ js_get TUndefined (zeros t) 0 = TNum 0
      ∧ (∀ i, 1 ≤ i < 3 →
           js_get TUndefined (zeros t) i
           = hashLeftRight term_hash (js_get TUndefined (zeros t) (i - 1))
               (js_get TUndefined (zeros t) (i - 1)))
      ∧ nextIndex t = 0 ∧ leaves t = [].
Proof.
  assert (1 ≤ 3) as Hd by lia. split; [exact Hd|].
  exact (constructor_root TUndefined term_hash 3 (TNum 0) Hd).
Defined.

Lemma constructor_seeds_filledPaths_depth3 :
  1 ≤ 2 < 3 ∧ 1 < 2 ^ (3 - 2)
  ∧ ∃ t, new_MerkleTree TUndefined term_hash 3 (TNum 0) = (Normal (), t)
      ∧ is_Some (filledPaths t !! 2)
      ∧ filledPath_at TUndefined t 2 1 = js_get TUndefined (zeros t) 2
      ∧ filledPath_at TUndefined t 2 1 = zero_at term_hash (TNum 0) 2
      ∧ (2 ≤ 2 →
         filledPath_at TUndefined t 2 1
         = hashLeftRight term_hash (js_get TUndefined (zeros t) (2 - 1))
             (js_get TUndefined (zeros t) (2 - 1))).
Proof.
  assert (1 ≤ 2 < 3) as Hi by lia.
  assert (1 < 2 ^ (3 - 2)) as Hj by (simpl; lia).
  split; [exact Hi|]. split; [exact Hj|].
  exact (constructor_seeds_filledPaths TUndefined term_hash 3 (TNum 0) 2 1 Hi Hj).
Defined.

Lemma getPathUpdate_siblings_tree2 :
  reachable TUndefined term_hash tree2
  ∧ (nextIndex tree2 ≤ 1 →
       ∃ e, getPathUpdate TUndefined 1 tree2 = (Throw e, tree2)
            ∧ classify e = Some LeafNotInserted)
  ∧ (1 < nextIndex tree2 →
       ∃ path pairs,
         getPathUpdate TUndefined 1 tree2 = (Normal (path, pairs), tree2)
         ∧ length path = depth tree2
         ∧ length pairs = depth tree2
         ∧ ∀ i, i < depth tree2 →
             let c := curIdx_at 1 i in
             let s := if decide (c mod 2 = 0) then c + 1 else c - 1 in
             path !! i = Some (filledPath_at TUndefined tree2 i s)
             ∧ pairs !! i = Some (i, s)).
Proof.
  split; [apply tree2_reachable|].
  exact (getPathUpdate_siblings TUndefined term_hash tree2 1 tree2_reachable).
Defined.

Lemma update_frame_tree1 :
  reachable TUndefined term_hash tree1
  ∧ update TUndefined term_hash 0 (TNum 11) [TNum 0] tree1 = (Normal (), tree1u)
  ∧ nextIndex tree1u = nextIndex tree1
  ∧ length (leaves tree1u) = length (leaves tree1)
  ∧ zeros tree1u = zeros tree1
  ∧ filledSubtrees tree1u = filledSubtrees tree1
  ∧ (∀ j, j ≠ 0 → leaves tree1u !! j = leaves tree1 !! j)
  ∧ (∀ i j, (i < depth tree1 → j ≠ 0 / 2 ^ i ∧ j ≠ sibling (0 / 2 ^ i)) →
       entry (filledPaths tree1u) i j = entry (filledPaths tree1) i j)
  ∧ depth tree1u = depth tree1 ∧ zeroValue tree1u = zeroValue tree1
  ∧ leafNumber tree1u = leafNumber tree1.
Proof.
  split; [apply tree1_reachable|]. split; [apply tree1u_update|].
  exact (update_frame TUndefined term_hash tree1 tree1u 0 (TNum 11) [TNum 0]
           tree1_reachable tree1u_update).
Defined.

(** *** The further properties at concrete inputs *)

(** Depth 1 filled by [insert(10)] and [insert(12)], then
    [update(0, 11, [12])]; and [update(0, 10, [0])], which writes the stored
    leaf again. *)
Definition full1 : MerkleTree :=
  (insert TUndefined term_hash (TNum 12) tree1).2.
Definition full1u : MerkleTree :=
  (update TUndefined term_hash 0 (TNum 11) [TNum 12] full1).2.
Definition tree1s : MerkleTree :=
  (update TUndefined term_hash 0 (js_index TUndefined (leaves tree1) 0)
     [TNum 0] tree1).2.

Lemma full1_insert :
  insert TUndefined term_hash (TNum 12) tree1 = (Normal (), full1).
Proof. by vm_compute. Qed.

Lemma full1u_update :
  update TUndefined term_hash 0 (TNum 11) [TNum 12] full1
  = (Normal (), full1u).
Proof. by vm_compute. Qed.

Lemma tree1s_update :
  update TUndefined term_hash 0 (js_index TUndefined (leaves tree1) 0)
    [TNum 0] tree1 = (Normal (), tree1s).
Proof. by vm_compute. Qed.

Lemma full1_clean : clean TUndefined term_hash full1.
Proof.
  eapply clean_insert; [|apply full1_insert].
  eapply clean_insert; [|apply tree1_insert].
  eapply clean_new, tree0_new.
Qed.

Lemma full1u_clean : clean TUndefined term_hash full1u.
Proof.
  eapply clean_update; [apply full1_clean| |apply full1u_update].
  by apply full_settled.
Qed.

Lemma inserts_root_is_merkle_root_driver :
  1 ≤ 3 ∧ length driver_leaves ≤ 2 ^ 3
  ∧ ∃ t0 t, new_MerkleTree TUndefined term_hash 3 (TNum 0) = (Normal (), t0)
      ∧ insert_all TUndefined term_hash driver_leaves t0 = (Normal (), t)
      ∧ leaves t = driver_leaves ∧ nextIndex t = length driver_leaves
      ∧ root t = merkle_root term_hash 3 (TNum 0) driver_leaves.
Proof.
  assert (1 ≤ 3) as Hd by lia.
  assert (length driver_leaves ≤ 2 ^ 3) as Hlen by (simpl; lia).
  split; [exact Hd|]. split; [exact Hlen|].
  exact (inserts_root_is_merkle_root TUndefined term_hash 3 (TNum 0)
           driver_leaves Hd Hlen).
Defined.

Lemma inserts_path_is_sibling_digests_driver :
  1 ≤ 3 ∧ length driver_leaves ≤ 2 ^ 3 ∧ 3 < length driver_leaves
  ∧ ∃ t0 t pairs,
      new_MerkleTree TUndefined term_hash 3 (TNum 0) = (Normal (), t0)
      ∧ insert_all TUndefined term_hash driver_leaves t0 = (Normal (), t)
      ∧ getPathUpdate TUndefined 3 t
        = (Normal (map (λ i, node term_hash (padded (TNum 0) driver_leaves) i
                               (sibling (3 / 2 ^ i))) (seq 0 3), pairs), t).
Proof.
  assert (1 ≤ 3) as Hd by lia.
  assert (length driver_leaves ≤ 2 ^ 3) as Hlen by (simpl; lia).
  assert (3 < length driver_leaves) as Hk by (simpl; lia).
  split; [exact Hd|]. split; [exact Hlen|]. split; [exact Hk|].
  exact (inserts_path_is_sibling_digests TUndefined term_hash 3 (TNum 0)
           driver_leaves 3 Hd Hlen Hk).
Defined.

Lemma reachable_invariants_tree2 :
  reachable TUndefined term_hash tree2
  ∧ leafNumber tree2 = 2 ^ depth tree2
  ∧ nextIndex tree2 ≤ 2 ^ depth tree2
  ∧ length (leaves tree2) = nextIndex tree2
  ∧ (∀ i, i < depth tree2 → is_Some (filledPaths tree2 !! i))
  ∧ (∀ i, i < depth tree2 →
       js_get TUndefined (zeros tree2) i
       = zero_at term_hash (zeroValue tree2) i).
Proof.
  split; [apply tree2_reachable|].
  exact (reachable_invariants TUndefined term_hash tree2 tree2_reachable).
Defined.

Lemma insert_appends_within_frame_tree1 :
  reachable TUndefined term_hash tree1
  ∧ nextIndex tree1 < 2 ^ depth tree1
  ∧ ∃ t', insert TUndefined term_hash (TNum 12) tree1 = (Normal (), t')
      ∧ leaves t' = leaves tree1 ++ [TNum 12]
      ∧ nextIndex t' = nextIndex tree1 + 1
      ∧ depth t' = depth tree1 ∧ zeroValue t' = zeroValue tree1
      ∧ leafNumber t' = leafNumber tree1 ∧ zeros t' = zeros tree1
      ∧ (∀ i j, (i < depth tree1 → j ≠ nextIndex tree1 / 2 ^ i
                                   ∧ j ≠ sibling (nextIndex tree1 / 2 ^ i)) →
           entry (filledPaths t') i j = entry (filledPaths tree1) i j)
      ∧ (∀ i, (i < depth tree1 → (nextIndex tree1 / 2 ^ i) mod 2 ≠ 0) →
           filledSubtrees t' !! i = filledSubtrees tree1 !! i).
Proof.
  assert (nextIndex tree1 < 2 ^ depth tree1) as Hk by (vm_compute; lia).
  split; [apply tree1_reachable|]. split; [exact Hk|].
  exact (insert_appends_within_frame TUndefined term_hash tree1 (TNum 12)
           tree1_reachable Hk).
Defined.

Lemma inserted_leaf_verifies_tree2 :
  reachable TUndefined term_hash tree1u
  ∧ insert TUndefined term_hash (TNum 12) tree1u = (Normal (), tree2)
  ∧ ∃ path pairs,
      getPathUpdate TUndefined (nextIndex tree1u) tree2
      = (Normal (path, pairs), tree2)
      ∧ leafExists TUndefined term_hash (nextIndex tree1u) (TNum 12) path tree2
        = (Normal true, tree2).
Proof.
  split; [apply tree1u_reachable|]. split; [apply tree2_insert|].
  exact (inserted_leaf_verifies TUndefined term_hash tree1u tree2 (TNum 12)
           tree1u_reachable tree2_insert).
Defined.

Lemma updated_leaf_verifies_tree1u :
  reachable TUndefined term_hash tree1
  ∧ update TUndefined term_hash 0 (TNum 11) [TNum 0] tree1
    = (Normal (), tree1u)
  ∧ root tree1u = climb TUndefined term_hash [TNum 0] (depth tree1) 0 (TNum 11)
  ∧ ∃ pairs,
      getPathUpdate TUndefined 0 tree1u
      = (Normal (map (js_index TUndefined [TNum 0]) (seq 0 (depth tree1)),
                 pairs), tree1u)
      ∧ leafExists TUndefined term_hash 0 (TNum 11)
          (map (js_index TUndefined [TNum 0]) (seq 0 (depth tree1))) tree1u
        = (Normal true, tree1u).
Proof.
  split; [apply tree1_reachable|]. split; [apply tree1u_update|].
  exact (updated_leaf_verifies TUndefined term_hash tree1 tree1u 0 (TNum 11)
           [TNum 0] tree1_reachable tree1u_update).
Defined.

Lemma update_to_stored_leaf_keeps_root_tree1 :
  reachable TUndefined term_hash tree1
  ∧ update TUndefined term_hash 0 (js_index TUndefined (leaves tree1) 0)
      [TNum 0] tree1 = (Normal (), tree1s)
  ∧ root tree1s = root tree1 ∧ leaves tree1s = leaves tree1
  ∧ nextIndex tree1s = nextIndex tree1.
Proof.
  split; [apply tree1_reachable|]. split; [apply tree1s_update|].
  exact (update_to_stored_leaf_keeps_root TUndefined term_hash tree1 tree1s 0
           [TNum 0] tree1_reachable tree1s_update).
Defined.

Lemma path_read_below_depth_only_tree1 :
  (∀ i, i < depth tree1 →
     js_index TUndefined [TNum 0] i
     = js_index TUndefined [TNum 0; TNum 99] i)
  ∧ leafExists TUndefined term_hash 0 (TNum 11) [TNum 0] tree1
    = leafExists TUndefined term_hash 0 (TNum 11) [TNum 0; TNum 99] tree1
  ∧ update TUndefined term_hash 0 (TNum 11) [TNum 0] tree1
    = update TUndefined term_hash 0 (TNum 11) [TNum 0; TNum 99] tree1.
Proof.
  assert (∀ i, i < depth tree1 →
            js_index TUndefined [TNum 0] i
            = js_index TUndefined [TNum 0; TNum 99] i) as Hp.
  { intros i Hi. vm_compute in Hi. destruct i as [|i]; [reflexivity|lia]. }
  split; [exact Hp|].
  exact (path_read_below_depth_only TUndefined term_hash tree1 0 (TNum 11)
           [TNum 0] [TNum 0; TNum 99] Hp).
Defined.

Lemma clean_root_is_merkle_root_full1u :
  collision_free term_hash ∧ clean TUndefined term_hash full1u
  ∧ 0 < nextIndex full1u
  ∧ root full1u
    = merkle_root term_hash (depth full1u) (zeroValue full1u) (leaves full1u).
Proof.
  assert (0 < nextIndex full1u) as Hpos by (vm_compute; lia).
  split; [apply term_hash_collision_free|]. split; [apply full1u_clean|].
  split; [exact Hpos|].
  exact (clean_root_is_merkle_root TUndefined term_hash full1u
           term_hash_collision_free full1u_clean Hpos).
Defined.


Lemma clean_accepted_path_is_unique_full1u :
  collision_free term_hash ∧ clean TUndefined term_hash full1u
  ∧ leafExists TUndefined term_hash 0 (js_index TUndefined (leaves full1u) 0)
      [TNum 12] full1u = (Normal true, full1u)
  ∧ ∀ i, i < depth full1u →
      js_index TUndefined [TNum 12] i
      = node term_hash (padded (zeroValue full1u) (leaves full1u)) i
          (sibling (0 / 2 ^ i)).
Proof.
  assert (leafExists TUndefined term_hash 0
            (js_index TUndefined (leaves full1u) 0) [TNum 12] full1u
          = (Normal true, full1u)) as Hex by (by vm_compute).
  split; [apply term_hash_collision_free|]. split; [apply full1u_clean|].
  split; [exact Hex|].
  exact (clean_accepted_path_is_unique TUndefined term_hash full1u 0
           [TNum 12] term_hash_collision_free full1u_clean Hex).
Defined.

Lemma clean_fresh_path_update_succeeds_full1u :
  collision_free term_hash ∧ clean TUndefined term_hash full1u
  ∧ 1 < nextIndex full1u
  ∧ ∃ path pairs t',
      getPathUpdate TUndefined 1 full1u = (Normal (path, pairs), full1u)
      ∧ update TUndefined term_hash 1 (TNum 13) path full1u = (Normal (), t')
      ∧ js_index TUndefined (leaves t') 1 = TNum 13
      ∧ (nextIndex full1u = 2 ^ depth full1u → clean TUndefined term_hash t').
Proof.
  assert (1 < nextIndex full1u) as Hk by (vm_compute; lia).
  split; [apply term_hash_collision_free|]. split; [apply full1u_clean|].
  split; [exact Hk|].
  exact (clean_fresh_path_update_succeeds TUndefined term_hash full1u 1
           (TNum 13) term_hash_collision_free full1u_clean Hk).
Defined.

Lemma constructor_levels_depth3 :
  1 ≤ 3
  ∧ ∃ t, new_MerkleTree TUndefined term_hash 3 (TNum 0) = (Normal (), t)
      ∧ depth t = 3 ∧ zeroValue t = TNum 0 ∧ leafNumber t = 2 ^ 3
      ∧ ∀ i, i < 3 →
          js_get TUndefined (zeros t) i = zero_at term_hash (TNum 0) i
          ∧ js_get TUndefined (filledSubtrees t) i
            = js_get TUndefined (zeros t) i.
Proof.
  assert (1 ≤ 3) as Hd by lia. split; [exact Hd|].
  exact (constructor_levels TUndefined term_hash 3 (TNum 0) Hd).
Defined.

(** *** [update] with the conversions of [hash], at concrete inputs *)

Lemma term_hash_digest : digest_hash TUndefined term_hash.
Proof. by intros a b. Qed.

Lemma tree0_newT :
  new_MerkleTreeT TUndefined term_hash 1 (TNum 0) = (Normal (), tree0).
Proof. by vm_compute. Qed.

Lemma tree1_insertT :
  insertT TUndefined term_hash (TNum 10) tree0 = (Normal (), tree1).
Proof. by vm_compute. Qed.

Lemma tree1_reachableT : reachableT TUndefined term_hash tree1.
Proof.
  eapply reachableT_insert; [|apply tree1_insertT].
  eapply reachableT_new, tree0_newT.
Qed.

(** C4, at depth 1 after [insert(10)]: [update(0, 11, [])], with a path
    shorter than [depth].  Index [0] is inserted, [leafExists] does not
    accept the path, and [update] throws, but what it throws is the
    [TypeError] of [hash] (line 55, reached from line 123 of [leafExists]
    through line 129), which is no [ProofMismatch]; the tree is left as it
    was. *)
Lemma update_short_path_not_ProofMismatch :
  digest_hash TUndefined term_hash
  ∧ reachableT TUndefined term_hash tree1
  ∧ 0 < nextIndex tree1
  ∧ length ([] : list term) < depth tree1
  ∧ leafExistsT TUndefined term_hash 0 (js_index TUndefined (leaves tree1) 0)
      [] tree1 = (Throw TypeError, tree1)
  ∧ updateT TUndefined term_hash 0 (TNum 11) [] tree1
    = (Throw TypeError, tree1)
  ∧ classify TypeError = None
  ∧ ¬ ∃ e, updateT TUndefined term_hash 0 (TNum 11) [] tree1 = (Throw e, tree1)
           ∧ classify e = Some ProofMismatch.
Proof.
  split; [apply term_hash_digest|]. split; [apply tree1_reachableT|].
  split; [vm_compute; lia|]. split; [vm_compute; lia|].
  do 3 (split; [by vm_compute|]).
  intros (e & Hupd & He).
  assert (e = TypeError) as -> by (vm_compute in Hupd; congruence).
  done.
Qed.

(** C4, at depth 1 after [insert(10)]: [update(0, 11, [0])], with the path
    [getPathUpdate(0)] returns. *)
Lemma updateT_gated_by_leafExistsT_tree1 :
  digest_hash TUndefined term_hash
  ∧ reachableT TUndefined term_hash tree1
  ∧ TNum 11 ≠ TUndefined
  ∧ 0 < nextIndex tree1
  ∧ (∀ i, i < depth tree1 → js_index TUndefined [TNum 0] i ≠ TUndefined)
  ∧ (∃ b, leafExistsT TUndefined term_hash 0
            (js_index TUndefined (leaves tree1) 0) [TNum 0] tree1
          = (Normal b, tree1)
       ∧ (b = true →
          ∃ t', updateT TUndefined term_hash 0 (TNum 11) [TNum 0] tree1
                = (Normal (), t')
                ∧ js_index TUndefined (leaves t') 0 = TNum 11)
       ∧ (b = false →
          ∃ e, updateT TUndefined term_hash 0 (TNum 11) [TNum 0] tree1
               = (Throw e, tree1)
               ∧ classify e = Some ProofMismatch))
  ∧ (nextIndex tree1 ≤ 0 →
     ∃ e, updateT TUndefined term_hash 0 (TNum 11) [TNum 0] tree1
          = (Throw e, tree1)
          ∧ classify e = Some LeafNotInserted).
Proof.
  assert (TNum 11 ≠ TUndefined) as Hleaf by done.
  assert (0 < nextIndex tree1) as Hk by (vm_compute; lia).
  assert (∀ i, i < depth tree1 → js_index TUndefined [TNum 0] i ≠ TUndefined)
    as Hp.
  { intros i Hi. assert (i = 0) as -> by (vm_compute in Hi; lia). done. }
  split; [apply term_hash_digest|]. split; [apply tree1_reachableT|].
  split; [exact Hleaf|]. split; [exact Hk|]. split; [exact Hp|].
  destruct (updateT_gated_by_leafExistsT TUndefined term_hash tree1 0 (TNum 11)
              [TNum 0] term_hash_digest tree1_reachableT Hleaf)
    as (Hdefined & _ & Hthrow).
  split; [exact (Hdefined Hk Hp)|exact Hthrow].
Defined.
